(** * Blockchain_Tp: Merkle tree, block sealing and chain validation

    A shallow embedding of the ledger core of Exercice1.cpp .. Exercice4.cpp
    (Exercice4.cpp integrates the three earlier exercises and is the
    reference; the places where an earlier exercise differs are modelled
    next to it).

    - [std::string] is [string] (a sequence of 8-bit characters);
    - [uint64_t] is [Z] with the wrap-around written out ([wrap64]);
    - [double] is [spec_float], the IEEE 754 values of the standard library;
    - [std::vector] is [list], indexed with stdpp's lookup;
    - [time(nullptr)] and the draw of [uniform_int_distribution] are inputs
      of the operation that reads them;
    - the digest primitive [SHA256] of OpenSSL is a variable of the model;
      [Fips] gives the instance of FIPS 180-4 on which concrete chains are
      evaluated. *)

From Stdlib Require Import ZArith Lia List Bool Ascii String Strings.Byte DecimalString SpecFloat.
From stdpp Require Import base option list.
Import ListNotations.

Local Open Scope string_scope.
Local Open Scope Z_scope.

(** ** Outcomes of a call

    A call either returns, or is still in its loop when the fuel of the
    model is spent ([Spinning]: the C++ loop has no bound), or has no defined
    behaviour in C++ ([Undefined]: [back()] of an empty vector). *)

Inductive outcome (A : Type) : Type :=
| Done (a : A)
| Spinning
| Undefined.
Arguments Done {A} a.
Arguments Spinning {A}.
Arguments Undefined {A}.

#[export] Instance outcome_ret : MRet outcome := fun A a => Done a.

#[export] Instance outcome_bind : MBind outcome := fun A B k o =>
  match o with
  | Done a => k a
  | Spinning => Spinning
  | Undefined => Undefined
  end.

#[export] Instance outcome_fmap : FMap outcome := fun A B f o =>
  match o with
  | Done a => Done (f a)
  | Spinning => Spinning
  | Undefined => Undefined
  end.

(** ** Machine integers and stream insertion *)

Definition wrap64 (z : Z) : Z := z mod 2 ^ 64.

(** [ss << n] for an unsigned integer: its decimal digits. *)
Definition put_uint (n : Z) : string :=
  NilZero.string_of_uint (N.to_uint (Z.to_N n)).

Fixpoint string_of_chars (l : list ascii) : string :=
  match l with
  | [] => ""
  | c :: l' => String c (string_of_chars l')
  end.

(** [std::string(n, c)] *)
Fixpoint fill (n : nat) (c : ascii) : string :=
  match n with
  | O => ""
  | S n' => String c (fill n' c)
  end.

(** [s.substr(pos)], for [pos <= s.size()] *)
Fixpoint substr_from (pos : nat) (s : string) : string :=
  match pos, s with
  | O, _ => s
  | S p, String _ s' => substr_from p s'
  | S _, EmptyString => ""
  end.

(** *** [ss << amount] for a double

    With the default flags of a stream this is [printf("%g")] at precision
    6: six significant digits, rounded to nearest (ties to even) from the
    exact value, fixed notation when the decimal exponent X satisfies
    -4 <= X < 6 and scientific notation otherwise, trailing zeros removed.
    [spec_float] has one NaN; it is written "nan". *)

Definition double : Type := spec_float.

(** Conversion of an integer literal such as [10.0]. *)
Definition double_of_Z (z : Z) : double := binary_normalize 53 1024 z 0 false.

Definition round_half_even (a b : Z) : Z :=
  let q := a / b in
  let r := a mod b in
  if 2 * r <? b then q
  else if b <? 2 * r then q + 1
  else if Z.even q then q else q + 1.

Definition decimal_digits (z : Z) : Z := Z.of_nat (String.length (put_uint z)).

(** The decimal exponent X of num/den > 0: 10^X <= num/den < 10^(X+1). *)
Definition decimal_exponent (num den : Z) : Z :=
  if den <=? num then decimal_digits (num / den) - 1
  else
    let k := decimal_digits (den / num) - 1 in
    if den <=? num * 10 ^ k then - k else - (k + 1).

Fixpoint strip_zeros_rev (l : list ascii) : list ascii :=
  match l with
  | "0"%char :: l' => strip_zeros_rev l'
  | _ => l
  end.

Definition strip_trailing_zeros (s : string) : string :=
  string_of_chars (rev (strip_zeros_rev (rev (list_ascii_of_string s)))).

Definition with_fraction (int_part frac : string) : string :=
  match strip_trailing_zeros frac with
  | "" => int_part
  | f => int_part ++ "." ++ f
  end.

Definition put_exponent (x : Z) : string :=
  let a := put_uint (Z.abs x) in
  (if x <? 0 then "e-" else "e+") ++ (if Z.abs x <? 10 then "0" else "") ++ a.

Definition put_positive_g (num den : Z) : string :=
  let x0 := decimal_exponent num den in
  let d0 := if x0 <=? 5 then round_half_even (num * 10 ^ (5 - x0)) den
            else round_half_even num (den * 10 ^ (x0 - 5)) in
  let '(d, x) := if d0 =? 10 ^ 6 then (10 ^ 5, x0 + 1) else (d0, x0) in
  let digits := put_uint d in
  if (x <? -4) || (6 <=? x) then
    with_fraction (substring 0 1 digits) (substr_from 1 digits) ++ put_exponent x
  else if 0 <=? x then
    with_fraction (substring 0 (Z.to_nat (x + 1)) digits)
                  (substr_from (Z.to_nat (x + 1)) digits)
  else
    with_fraction "0" (fill (Z.to_nat (- x - 1)) "0" ++ digits).

Definition put_double (x : double) : string :=
  match x with
  | S754_zero s => if s then "-0" else "0"
  | S754_infinity s => if s then "-inf" else "inf"
  | S754_nan => "nan"
  | S754_finite s m e =>
      (if s then "-" else "") ++
      (if 0 <=? e then put_positive_g (Z.pos m * 2 ^ e) 1
       else put_positive_g (Z.pos m) (2 ^ (- e)))
  end.

(** ** sha256_hex

    [oss << hex << setfill('0')], then [setw(2) << int(hash[i])] for each of
    the [SHA256_DIGEST_LENGTH] = 32 bytes. *)

Definition SHA256_DIGEST_LENGTH : nat := 32.

Definition hex_digit (n : Z) : ascii :=
  nth (Z.to_nat n) (list_ascii_of_string "0123456789abcdef") "0"%char.

Definition put_hex2 (b : Byte.byte) : string :=
  let n := Z.of_N (Byte.to_N b) in
  String (hex_digit (n / 16)) (String (hex_digit (n mod 16)) "").

Fixpoint concat_strings (l : list string) : string :=
  match l with
  | [] => ""
  | s :: l' => s ++ concat_strings l'
  end.

Definition hex_of_digest (hash : list Byte.byte) : string :=
  concat_strings
    (map (fun i => put_hex2 (nth i hash Byte.x00)) (seq 0 SHA256_DIGEST_LENGTH)).

(** ** Data model *)

Record Transaction : Type := {
  id : string;
  sender : string;
  receiver : string;
  amount : double
}.

(** [Transaction::toString] *)
Definition toString (tx : Transaction) : string :=
  id tx ++ sender tx ++ receiver tx ++ put_double (amount tx).

(** [Block] of Exercice4.cpp; [hash] is the empty string until the block is
    sealed. *)
Record Block : Type := {
  index : Z;
  previousHash : string;
  merkleRoot : string;
  transactions : list Transaction;
  timestamp : Z;
  nonce : Z;
  hash : string
}.

Definition set_nonce (b : Block) (n : Z) : Block :=
  {| index := index b; previousHash := previousHash b; merkleRoot := merkleRoot b;
     transactions := transactions b; timestamp := timestamp b;
     nonce := n; hash := hash b |}.

Definition set_hash (b : Block) (h : string) : Block :=
  {| index := index b; previousHash := previousHash b; merkleRoot := merkleRoot b;
     transactions := transactions b; timestamp := timestamp b;
     nonce := nonce b; hash := h |}.

Definition set_transactions (b : Block) (txs : list Transaction) : Block :=
  {| index := index b; previousHash := previousHash b; merkleRoot := merkleRoot b;
     transactions := txs; timestamp := timestamp b;
     nonce := nonce b; hash := hash b |}.

Definition set_amount (tx : Transaction) (a : double) : Transaction :=
  {| id := id tx; sender := sender tx; receiver := receiver tx; amount := a |}.

(** [tree[k]], read inside the bounds in every run of [buildTree]. *)
Definition at_index (tree : list string) (k : nat) : string := nth k tree "".

Section Model.

(** [SHA256 data] is the content of the array [hash] after the call of
    OpenSSL's [SHA256] on [data]. *)
Variable SHA256 : string -> list Byte.byte.

Definition sha256_hex (data : string) : string := hex_of_digest (SHA256 data).

(** *** MerkleTree *)

(** The body of the [for] loop of [buildTree] from index [i]; the fuel
    bounds the iterations that are left, [levelSize] of them are enough. *)
Fixpoint level_loop (fuel : nat) (tree : list string) (offset levelSize i : nat)
  : list string :=
  match fuel with
  | O => tree
  | S fuel' =>
      if (i <? levelSize)%nat then
        let tree' :=
          if (i + 1 <? levelSize)%nat then
            let combined := at_index tree (offset + i) ++ at_index tree (offset + i + 1) in
            (tree ++ [sha256_hex combined])%list
          else
            (tree ++ [at_index tree (offset + i)])%list in
        level_loop fuel' tree' offset levelSize (i + 2)
      else tree
  end.

(** The [while] loop of [buildTree]; [None] when the fuel is spent before
    the loop condition fails. *)
Fixpoint tree_loop (fuel : nat) (tree : list string) (offset : nat)
  : option (list string) :=
  if (1 <? length tree - offset)%nat then
    match fuel with
    | O => None
    | S fuel' =>
        let levelSize := (length tree - offset)%nat in
        tree_loop fuel' (level_loop levelSize tree offset levelSize 0)
                  (offset + levelSize)
    end
  else Some tree.

(** [MerkleTree::buildTree] on [leaves]: the final content of [tree]. One
    round of the loop per leaf is enough fuel ([buildTree_total]). *)
Definition buildTree (leaves : list string) : option (list string) :=
  tree_loop (length leaves) (map sha256_hex leaves) 0.

(** The object built by the constructor [MerkleTree(data)]: its [tree]. *)
Definition MerkleTree (data : list string) : list string :=
  default [] (buildTree data).

(** [MerkleTree::getRoot] *)
Definition getRoot (tree : list string) : string :=
  match last tree with
  | None => ""
  | Some root => root
  end.

(** *** Block *)

(** The constructor [Block(idx, prev, txs)], at time [now]: the value of
    [time(nullptr)] as stored in the [uint64_t] field, 0 <= now < 2^64. *)
Definition Block_new (idx : Z) (prev : string) (txs : list Transaction) (now : Z)
  : Block :=
  {| index := idx; previousHash := prev;
     merkleRoot := getRoot (MerkleTree (map toString txs));
     transactions := txs; timestamp := now; nonce := 0; hash := "" |}.

(** [Block::computeHash] *)
Definition computeHash (b : Block) (testNonce : Z) (validator : string) : string :=
  let ss := put_uint (index b) ++ previousHash b ++ merkleRoot b
            ++ put_uint (timestamp b) ++ put_uint testNonce in
  let ss := if String.eqb validator "" then ss
            else ss ++ " (Validated by: " ++ validator ++ ")" in
  sha256_hex ss.

(** [Block::mineBlock]; [difficulty] is a [uint32_t]. *)
Fixpoint mineBlock (fuel : nat) (difficulty : nat) (b : Block) : outcome Block :=
  match fuel with
  | O => Spinning
  | S fuel' =>
      let b := set_hash b (computeHash b (nonce b) "") in
      if String.eqb (substring 0 difficulty (hash b)) (fill difficulty "0")
      then Done b
      else mineBlock fuel' difficulty (set_nonce b (wrap64 (nonce b + 1)))
  end.

(** [Block::forgeBlock] *)
Definition forgeBlock (b : Block) (validator : string) : Block :=
  let b := set_nonce b 0 in
  set_hash b (computeHash b (nonce b) validator).

(** *** Blockchain *)

Definition genesisTx : list Transaction :=
  [ {| id := "0"; sender := "Genesis"; receiver := "Genesis";
       amount := S754_zero false |} ].

(** The constructor [Blockchain()] *)
Definition Blockchain (now : Z) : list Block := [Block_new 0 "0" genesisTx now].

(** [Blockchain::getLastBlock]: [chain.back()] *)
Definition getLastBlock (chain : list Block) : outcome Block :=
  match last chain with
  | Some b => Done b
  | None => Undefined
  end.

(** The validator that [isValid] cuts out of a hash holding the marker at
    [pos]. *)
Definition extract_validator (h : string) (pos : nat) : string :=
  let validator := substr_from (pos + 13) h in
  match String.index 0 ")" validator with
  | Some e => substring 0 e validator
  | None => validator
  end.

(** The digest that [isValid] expects of [current]. *)
Definition recomputedHash (current : Block) : string :=
  match String.index 0 "(Validated by:" (hash current) with
  | Some pos => computeHash current (nonce current) (extract_validator (hash current) pos)
  | None => computeHash current (nonce current) ""
  end.

(** The body of the loop of [isValid] on [previous = chain[i - 1]] and
    [current = chain[i]]: [false] when it returns false, [true] when it
    goes on to the next round. *)
Definition check_link (previous current : Block) : bool :=
  if negb (String.eqb (previousHash current) (hash previous)) then false
  else if negb (String.eqb (hash current) (recomputedHash current)) then false
  else true.

Definition check_block (chain : list Block) (i : nat) : bool :=
  match chain !! i, chain !! (i - 1)%nat with
  | Some current, Some previous => check_link previous current
  | _, _ => false
  end.

(** [Blockchain::isValid] *)
Definition isValid (chain : list Block) : bool :=
  forallb (check_block chain) (seq 1 (length chain - 1)).

(** *** PoWBlockchain *)

(** The constructor [PoWBlockchain(diff)]: [chain[0].mineBlock(difficulty)]. *)
Definition PoWBlockchain (fuel : nat) (diff : nat) (now : Z) : outcome (list Block) :=
  let chain := Blockchain now in
  match chain !! 0%nat with
  | Some genesis =>
      mined ← mineBlock fuel diff genesis;
      mret (<[0%nat := mined]> chain)
  | None => Undefined
  end.

(** [PoWBlockchain::addBlock] *)
Definition PoW_addBlock (fuel : nat) (diff : nat) (chain : list Block)
    (txs : list Transaction) (now : Z) : outcome (list Block) :=
  tip ← getLastBlock chain;
  let newBlock := Block_new (Z.of_nat (length chain)) (hash tip) txs now in
  mined ← mineBlock fuel diff newBlock;
  mret (chain ++ [mined])%list.

(** *** PoSBlockchain *)

Definition totalStake (validators : list (string * Z)) : Z :=
  fold_left (fun total v => wrap64 (total + snd v)) validators 0.

(** The largest value of [dis(gen)]: [totalStake - 1] in [uint64_t]. *)
Definition draw_max (validators : list (string * Z)) : Z :=
  wrap64 (totalStake validators - 1).

(** The second loop of [selectValidator]: the validator it returns, or
    [None] when it runs off the end of the list. *)
Fixpoint walk (validators : list (string * Z)) (randVal current : Z) : option string :=
  match validators with
  | [] => None
  | v :: rest =>
      let current := wrap64 (current + snd v) in
      if randVal <? current then Some (fst v) else walk rest randVal current
  end.

(** [PoSBlockchain::selectValidator]. Its first loop computes [totalStake],
    which only sets the range [0, draw_max] of the distribution; [randVal]
    is the value drawn, [dis(gen)]. After the loop comes the fallback,
    [validators.back().first]. *)
Definition selectValidator (validators : list (string * Z)) (randVal : Z)
  : outcome string :=
  match walk validators randVal 0 with
  | Some name => Done name
  | None =>
      match last validators with
      | Some v => Done (fst v)
      | None => Undefined
      end
  end.

(** The constructor [PoSBlockchain(vals)] *)
Definition PoSBlockchain (vals : list (string * Z)) (now : Z) (randVal : Z)
  : outcome (list Block) :=
  let chain := Blockchain now in
  validator ← selectValidator vals randVal;
  match chain !! 0%nat with
  | Some genesis => mret (<[0%nat := forgeBlock genesis validator]> chain)
  | None => Undefined
  end.

(** [PoSBlockchain::addBlock] *)
Definition PoS_addBlock (vals : list (string * Z)) (chain : list Block)
    (txs : list Transaction) (now : Z) (randVal : Z) : outcome (list Block) :=
  tip ← getLastBlock chain;
  let newBlock := Block_new (Z.of_nat (length chain)) (hash tip) txs now in
  validator ← selectValidator vals randVal;
  mret (chain ++ [forgeBlock newBlock validator])%list.

End Model.

(** ** Exercice2.cpp

    The block of the proof-of-work exercise carries a [data] string where
    the block of Exercice4.cpp carries the Merkle root of its transactions;
    [mineBlock] is the same loop. ([PoWBlockchain::mineBlock] of
    Exercice3.cpp is this loop again, on a block passed by reference, and
    [MerkleTree] of Exercice1.cpp and [selectValidator] of Exercice3.cpp are
    the functions of Exercice4.cpp modelled above.) *)

Module Exercice2.

Record Block : Type := {
  index : Z;
  previousHash : string;
  data : string;
  timestamp : Z;
  nonce : Z;
  hash : string
}.

Definition set_nonce (b : Block) (n : Z) : Block :=
  {| index := index b; previousHash := previousHash b; data := data b;
     timestamp := timestamp b; nonce := n; hash := hash b |}.

Definition set_hash (b : Block) (h : string) : Block :=
  {| index := index b; previousHash := previousHash b; data := data b;
     timestamp := timestamp b; nonce := nonce b; hash := h |}.

Section Model.

Variable SHA256 : string -> list Byte.byte.

(** The constructor [Block(idx, prev, d)], at time [now]. *)
Definition Block_new (idx : Z) (prev d : string) (now : Z) : Block :=
  {| index := idx; previousHash := prev; data := d; timestamp := now;
     nonce := 0; hash := "" |}.

(** [Block::computeHash] *)
Definition computeHash (b : Block) (testNonce : Z) : string :=
  sha256_hex SHA256
    (put_uint (index b) ++ previousHash b ++ data b
     ++ put_uint (timestamp b) ++ put_uint testNonce).

(** [Block::mineBlock] *)
Fixpoint mineBlock (fuel : nat) (difficulty : nat) (b : Block) : outcome Block :=
  match fuel with
  | O => Spinning
  | S fuel' =>
      let b := set_hash b (computeHash b (nonce b)) in
      if String.eqb (substring 0 difficulty (hash b)) (fill difficulty "0")
      then Done b
      else mineBlock fuel' difficulty (set_nonce b (wrap64 (nonce b + 1)))
  end.

(** The constructor [Blockchain(diff)] *)
Definition Blockchain (fuel : nat) (diff : nat) (now : Z) : outcome (list Block) :=
  let chain := [Block_new 0 "0" "Genesis Block" now] in
  match chain !! 0%nat with
  | Some genesis =>
      mined ← mineBlock fuel diff genesis;
      mret (<[0%nat := mined]> chain)
  | None => Undefined
  end.

(** [Blockchain::addBlock], without its printing. *)
Definition addBlock (fuel : nat) (diff : nat) (chain : list Block) (d : string)
    (now : Z) : outcome (list Block) :=
  match last chain with
  | Some tip =>
      let newBlock := Block_new (Z.of_nat (length chain)) (hash tip) d now in
      mined ← mineBlock fuel diff newBlock;
      mret (chain ++ [mined])%list
  | None => Undefined
  end.

End Model.

End Exercice2.

(** The block of Exercice4.cpp that hashes like a block of Exercice2.cpp:
    its Merkle root is the [data]. *)
Definition as_Exercice4 (b : Exercice2.Block) : Block :=
  {| index := Exercice2.index b; previousHash := Exercice2.previousHash b;
     merkleRoot := Exercice2.data b; transactions := [];
     timestamp := Exercice2.timestamp b; nonce := Exercice2.nonce b;
     hash := Exercice2.hash b |}.

(** ** SHA-256 (FIPS 180-4), the instance of [SHA256] used by OpenSSL *)

Module Fips.

(** Words are 32-bit: additions and left shifts are cut by the mask. *)
Definition mask32 : Z := Eval vm_compute in Z.ones 32.

Definition add32 (x y : Z) : Z := Z.land (x + y) mask32.

Definition rotr (n x : Z) : Z :=
  Z.lor (Z.shiftr x n) (Z.land (Z.shiftl x (32 - n)) mask32).

Definition not32 (x : Z) : Z := Z.lxor x mask32.

Definition Ch (x y z : Z) : Z := Z.lxor (Z.land x y) (Z.land (not32 x) z).
Definition Maj (x y z : Z) : Z :=
  Z.lxor (Z.lxor (Z.land x y) (Z.land x z)) (Z.land y z).
Definition bsig0 (x : Z) : Z := Z.lxor (Z.lxor (rotr 2 x) (rotr 13 x)) (rotr 22 x).
Definition bsig1 (x : Z) : Z := Z.lxor (Z.lxor (rotr 6 x) (rotr 11 x)) (rotr 25 x).
Definition ssig0 (x : Z) : Z := Z.lxor (Z.lxor (rotr 7 x) (rotr 18 x)) (Z.shiftr x 3).
Definition ssig1 (x : Z) : Z := Z.lxor (Z.lxor (rotr 17 x) (rotr 19 x)) (Z.shiftr x 10).

(** The first 64 primes; the constants are the leading 32 bits of the
    fractional parts of their cube roots (K) and, for the first eight, of
    their square roots (the initial hash value). *)
Definition is_prime (p : nat) : bool :=
  forallb (fun d => negb (p mod d =? 0)%nat) (seq 2 (p - 2)).

Definition primes : list Z :=
  Eval vm_compute in map Z.of_nat (filter is_prime (seq 2 310)).

Fixpoint cube_root_search (steps : nat) (lo hi n : Z) : Z :=
  match steps with
  | O => lo
  | S k =>
      let mid := (lo + hi) / 2 in
      if mid * mid * mid <=? n then cube_root_search k mid hi n
      else cube_root_search k lo mid n
  end.

Definition K : list Z :=
  Eval vm_compute in
    map (fun p => cube_root_search 40 0 (2 ^ 40) (p * 2 ^ 96) mod 2 ^ 32) primes.

Definition H0 : list Z :=
  Eval vm_compute in
    map (fun p => Z.sqrt (p * 2 ^ 64) mod 2 ^ 32) (firstn 8 primes).

Definition be_bytes (width : nat) (n : Z) : list Z :=
  map (fun i => Z.shiftr n (8 * Z.of_nat (width - 1 - i)) mod 256) (seq 0 width).

(** Padding: the bit 1, zeros up to 56 modulo 64 bytes, the bit length on
    eight bytes. *)
Definition pad (msg : list Z) : list Z :=
  let len := Z.of_nat (length msg) in
  let zeros := Z.to_nat ((55 - len) mod 64) in
  (msg ++ 128 :: repeat 0 zeros ++ be_bytes 8 (8 * len))%list.

Fixpoint words (fuel : nat) (bytes : list Z) : list Z :=
  match fuel, bytes with
  | S k, b0 :: b1 :: b2 :: b3 :: rest =>
      (((b0 * 256 + b1) * 256 + b2) * 256 + b3) :: words k rest
  | _, _ => []
  end.

(** The message schedule after the sixteen words of the block: [window]
    holds the sixteen latest words. *)
Fixpoint schedule (n : nat) (window : list Z) : list Z :=
  match n with
  | O => []
  | S n' =>
      let w := add32 (add32 (ssig1 (nth 14 window 0)) (nth 9 window 0))
                     (add32 (ssig0 (nth 1 window 0)) (nth 0 window 0)) in
      w :: schedule n' (tl window ++ [w])%list
  end.

Definition round (st : list Z) (kw : Z * Z) : list Z :=
  match st with
  | [a; b; c; d; e; f; g; h] =>
      let t1 := add32 (add32 (add32 h (bsig1 e)) (add32 (Ch e f g) (fst kw))) (snd kw) in
      let t2 := add32 (bsig0 a) (Maj a b c) in
      [add32 t1 t2; a; b; c; add32 d t1; e; f; g]
  | _ => st
  end.

Definition compress (hs : list Z) (block : list Z) : list Z :=
  let w := (block ++ schedule 48 block)%list in
  zip_with add32 hs (fold_left round (zip K w) hs).

Fixpoint blocks (fuel : nat) (ws : list Z) (hs : list Z) : list Z :=
  match fuel, ws with
  | S k, _ :: _ => blocks k (skipn 16 ws) (compress hs (firstn 16 ws))
  | _, _ => hs
  end.

Definition bytes_of_string (s : string) : list Z :=
  map (fun c => Z.of_N (N_of_ascii c)) (list_ascii_of_string s).

Definition digest (data : string) : list Z :=
  let ws := words (String.length data + 72) (pad (bytes_of_string data)) in
  flat_map (be_bytes 4) (blocks (length ws) ws H0).

Definition SHA256 (data : string) : list Byte.byte :=
  map (fun b => default Byte.x00 (Byte.of_N (Z.to_N b))) (digest data).

End Fips.

(** ** Notions used by the statements *)

Definition hex_char (c : ascii) : bool :=
  existsb (Ascii.eqb c) (list_ascii_of_string "0123456789abcdef").

Fixpoint all_chars (p : ascii -> bool) (s : string) : bool :=
  match s with
  | EmptyString => true
  | String c s' => p c && all_chars p s'
  end.

(** The first [d] characters of [s] exist and are all '0'. *)
Definition leading_zeros (d : nat) (s : string) : Prop :=
  forall i, (i < d)%nat -> String.get i s = Some "0"%char.

(** [b'] has the fields of [b], but for [nonce] and [hash], which sealing
    sets. *)
Definition same_header (b b' : Block) : Prop :=
  index b' = index b /\ previousHash b' = previousHash b
  /\ merkleRoot b' = merkleRoot b /\ transactions b' = transactions b
  /\ timestamp b' = timestamp b.

(** A level given as consecutive pairs of nodes. *)
Definition flatten_pairs (pairs : list (string * string)) : list string :=
  flat_map (fun p => [fst p; snd p]) pairs.

(** Mutation of the amount of transaction [j] of block [i], every other
    stored field as it was. *)
Definition tamper_amount (chain : list Block) (i j : nat) (a : double) : list Block :=
  alter (fun b => set_transactions b
                    (alter (fun tx => set_amount tx a) j (transactions b))) i chain.

Section Reachable.

Variable SHA256 : string -> list Byte.byte.

(** The level that follows [level]: pairs are hashed, an odd last node is
    promoted. *)
Fixpoint next_level (level : list string) : list string :=
  match level with
  | a :: b :: rest => sha256_hex SHA256 (a ++ b) :: next_level rest
  | [a] => [a]
  | [] => []
  end.

(** [n] is a nonce for which the mining loop on [b] stops. *)
Definition qualifies (b : Block) (d : nat) (n : Z) : Prop :=
  leading_zeros d (computeHash SHA256 b n "").

(** The chains that a [PoWBlockchain] of difficulty [diff] can hold: the one
    left by the constructor, and those left by a call of [addBlock] that
    returned. *)
Inductive PoW_reachable (diff : nat) : list Block -> Prop :=
| PoW_constructed fuel now chain :
    PoWBlockchain SHA256 fuel diff now = Done chain ->
    PoW_reachable diff chain
| PoW_appended fuel chain txs now chain' :
    PoW_reachable diff chain ->
    PoW_addBlock SHA256 fuel diff chain txs now = Done chain' ->
    PoW_reachable diff chain'.

(** The chains that a [PoSBlockchain] over [vals] can hold; every draw lies
    in the range of the distribution. *)
Inductive PoS_reachable (vals : list (string * Z)) : list Block -> Prop :=
| PoS_constructed now r chain :
    0 <= r <= draw_max vals ->
    PoSBlockchain SHA256 vals now r = Done chain ->
    PoS_reachable vals chain
| PoS_appended chain txs now r chain' :
    PoS_reachable vals chain ->
    0 <= r <= draw_max vals ->
    PoS_addBlock SHA256 vals chain txs now r = Done chain' ->
    PoS_reachable vals chain'.

End Reachable.

(** ** Concrete runs, on SHA-256 *)

Module Demo.

Definition tx (i s r : string) (a : Z) : Transaction :=
  {| id := i; sender := s; receiver := r; amount := double_of_Z a |}.

(** The validators of [main]. *)
Definition validators : list (string * Z) :=
  [("Validator1", 100); ("Validator2", 200); ("Validator3", 150)].

(** The batch that [main] appends to the PoW chain in round [i]. *)
Definition pow_txs (i : Z) : list Transaction :=
  [tx (put_uint (i * 10 + 1)) "ILIAS" "mostapha " 10;
   tx (put_uint (i * 10 + 2)) "Nada" "Saad" 5].

(** The batch that [main] appends to the PoS chain in round [i]. *)
Definition pos_txs (i : Z) : list Transaction :=
  [tx (put_uint (i * 10 + 1)) "Alice" "Bob" 10;
   tx (put_uint (i * 10 + 2)) "Bob" "Charlie" 5].

(** The clock of the runs: the construction at [t0], round [i] one second
    after round [i - 1]. *)
Definition t0 : Z := 1700000000.

(** [PoWBlockchain powChain(diff)] and the first [n] rounds of the loop of
    [main] on it. *)
Fixpoint pow_run (fuel diff n : nat) : outcome (list Block) :=
  match n with
  | O => PoWBlockchain Fips.SHA256 fuel diff t0
  | S n' =>
      chain ← pow_run fuel diff n';
      PoW_addBlock Fips.SHA256 fuel diff chain (pow_txs (Z.of_nat n)) (t0 + Z.of_nat n)
  end.

(** [PoSBlockchain posChain(vals)] and the first [n] rounds of the loop of
    [main] on it; [draw 0] is the draw of the constructor and [draw i] the
    draw of round [i]. *)
Fixpoint pos_run (vals : list (string * Z)) (draw : nat -> Z) (n : nat)
  : outcome (list Block) :=
  match n with
  | O => PoSBlockchain Fips.SHA256 vals t0 (draw 0%nat)
  | S n' =>
      chain ← pos_run vals draw n';
      PoS_addBlock Fips.SHA256 vals chain (pos_txs (Z.of_nat n)) (t0 + Z.of_nat n) (draw n)
  end.

(** Six draws in the range [0, 449] of the distribution of [main]. *)
Definition draws (i : nat) : Z := nth i [250; 17; 120; 449; 0; 299] 0.

End Demo.

(** ** Exercice3.cpp

    The block is the block of Exercice2.cpp and [PoWBlockchain] is the
    [Blockchain] of Exercice2.cpp with [mineBlock] moved into the chain
    class. [PoSBlockchain] forges: the validator is written into [data]
    before the block is hashed. *)

Module Exercice3.

Definition set_data (b : Exercice2.Block) (d : string) : Exercice2.Block :=
  {| Exercice2.index := Exercice2.index b;
     Exercice2.previousHash := Exercice2.previousHash b;
     Exercice2.data := d;
     Exercice2.timestamp := Exercice2.timestamp b;
     Exercice2.nonce := Exercice2.nonce b;
     Exercice2.hash := Exercice2.hash b |}.

Section Model.

Variable SHA256 : string -> list Byte.byte.

(** [PoSBlockchain::forgeBlock], for the draw [randVal] of its call of
    [selectValidator]. *)
Definition forgeBlock (validators : list (string * Z)) (block : Exercice2.Block)
    (randVal : Z) : outcome Exercice2.Block :=
  validator ← selectValidator validators randVal;
  let block := Exercice2.set_nonce block 0 in
  let block := set_data block (Exercice2.data block ++ " (Forged by: " ++ validator ++ ")") in
  mret (Exercice2.set_hash block
          (Exercice2.computeHash SHA256 block (Exercice2.nonce block))).

(** The constructor [PoSBlockchain(vals)]: [forgeBlock(chain.back())]. *)
Definition PoSBlockchain (vals : list (string * Z)) (now : Z) (randVal : Z)
  : outcome (list Exercice2.Block) :=
  let chain := [Exercice2.Block_new 0 "0" "Genesis Block" now] in
  match last chain with
  | Some genesis =>
      forged ← forgeBlock vals genesis randVal;
      mret (<[(length chain - 1)%nat := forged]> chain)
  | None => Undefined
  end.

(** [PoSBlockchain::addBlock] *)
Definition addBlock (vals : list (string * Z)) (chain : list Exercice2.Block)
    (d : string) (now : Z) (randVal : Z) : outcome (list Exercice2.Block) :=
  match last chain with
  | Some tip =>
      let newBlock :=
        Exercice2.Block_new (Z.of_nat (length chain)) (Exercice2.hash tip) d now in
      forged ← forgeBlock vals newBlock randVal;
      mret (chain ++ [forged])%list
  | None => Undefined
  end.

(** The chains that a [PoSBlockchain] over [vals] can hold. *)
Inductive PoS_reachable (vals : list (string * Z)) : list Exercice2.Block -> Prop :=
| PoS_constructed now r chain :
    PoSBlockchain vals now r = Done chain ->
    PoS_reachable vals chain
| PoS_appended chain d now r chain' :
    PoS_reachable vals chain ->
    addBlock vals chain d now r = Done chain' ->
    PoS_reachable vals chain'.

End Model.

End Exercice3.

(** ** Exercice1.cpp: printTree

    The lines written to [cout], one per entry of [tree]. [level] and
    [count] are [int]; [1 << level] stays inside [int] as long as the tree
    has fewer than 2^31 - 1 entries, which the statements about it assume. *)

Fixpoint printTree_loop (tree : list string) (level count : Z) : list string :=
  match tree with
  | [] => []
  | node :: rest =>
      let line := "Level " ++ put_uint level ++ ": " ++ node in
      let count := count - 1 in
      if count =? 0
      then line :: printTree_loop rest (level + 1) (Z.shiftl 1 (level + 1))
      else line :: printTree_loop rest level count
  end.

(** [MerkleTree::printTree] *)
Definition printTree (tree : list string) : list string := printTree_loop tree 0 1.

(** ** Further notions used by the statements *)

Definition set_previousHash (b : Block) (h : string) : Block :=
  {| index := index b; previousHash := h; merkleRoot := merkleRoot b;
     transactions := transactions b; timestamp := timestamp b;
     nonce := nonce b; hash := hash b |}.

(** The total stake as a number: the sum of the stakes, without the
    wrap-around of [uint64_t]. *)
Definition sum_of_stakes (validators : list (string * Z)) : Z :=
  fold_right (fun v total => snd v + total) 0 validators.

(** A block hashed once with the nonce [n], without any search. *)
Definition seal_once (SHA256 : string -> list Byte.byte) (b : Block) (n : Z) : Block :=
  set_hash (set_nonce b n) (computeHash SHA256 b n "").

Section Levels.

Variable SHA256 : string -> list Byte.byte.

(** The levels above [level], one after the other, down to a level of one
    node; [fuel] bounds their number. *)
Fixpoint reduce_levels (fuel : nat) (level : list string) : list string :=
  match fuel with
  | O => level
  | S fuel' =>
      if (1 <? length level)%nat
      then reduce_levels fuel' (next_level SHA256 level)
      else level
  end.

(** The Merkle root by levels: the node that is left when the digests of the
    leaves are reduced level by level. *)
Definition root_by_levels (leaves : list string) : string :=
  match reduce_levels (length leaves) (map (sha256_hex SHA256) leaves) with
  | [root] => root
  | _ => ""
  end.

(** [s] is a digest as [sha256_hex] writes it. *)
Definition is_digest (s : string) : Prop :=
  String.length s = 64%nat /\ all_chars hex_char s = true.

(** The chains that the [Blockchain] of Exercice2.cpp can hold. *)
Inductive Exercice2_reachable (diff : nat) : list Exercice2.Block -> Prop :=
| Exercice2_constructed fuel now chain :
    Exercice2.Blockchain SHA256 fuel diff now = Done chain ->
    Exercice2_reachable diff chain
| Exercice2_appended fuel chain d now chain' :
    Exercice2_reachable diff chain ->
    Exercice2.addBlock SHA256 fuel diff chain d now = Done chain' ->
    Exercice2_reachable diff chain'.

End Levels.

(** * Properties *)

(** ** Strings *)

Lemma all_chars_append p (s1 s2 : string) :
  all_chars p (s1 ++ s2) = all_chars p s1 && all_chars p s2.
Proof.
  induction s1 as [|c s1 IH]; simpl; [reflexivity|].
  rewrite IH. apply andb_assoc.
Qed.

Lemma all_chars_get p s i c :
  all_chars p s = true -> String.get i s = Some c -> p c = true.
Proof.
  revert i. induction s as [|a s IH]; intros i Hall Hget; simpl in *.
  - discriminate.
  - apply andb_true_iff in Hall as [Ha Hs].
    destruct i as [|i]; [congruence | eauto].
Qed.

(** A pattern whose first character is excluded from a string does not
    occur in it. *)
Lemma index_excluded p (c : ascii) (pat s : string) :
  p c = false -> all_chars p s = true ->
  String.index 0 (String c pat) s = None.
Proof.
  intros Hc Hall.
  destruct (String.index 0 (String c pat) s) as [m|] eqn:E; [exfalso | reflexivity].
  apply index_correct1 in E.
  assert (Hget : String.get 0 (substring m (String.length (String c pat)) s)
                 = String.get (0 + m) s).
  { apply substring_correct1. simpl. lia. }
  rewrite E in Hget. simpl in Hget. symmetry in Hget.
  apply (all_chars_get _ _ _ _ Hall) in Hget. congruence.
Qed.

Lemma hex_digit_hex n : hex_char (hex_digit n) = true.
Proof.
  unfold hex_digit. generalize (Z.to_nat n) as k. intros k.
  do 16 (destruct k as [|k]; [reflexivity|]).
  simpl. destruct k; reflexivity.
Qed.

Lemma put_hex2_hex b : all_chars hex_char (put_hex2 b) = true.
Proof. unfold put_hex2. simpl. now rewrite !hex_digit_hex. Qed.

Lemma hex_of_digest_hex hash : all_chars hex_char (hex_of_digest hash) = true.
Proof.
  unfold hex_of_digest. generalize (seq 0 SHA256_DIGEST_LENGTH) as l.
  induction l as [|i l IH]; [reflexivity|].
  cbn [map concat_strings]. rewrite all_chars_append, put_hex2_hex. exact IH.
Qed.

Lemma hex_of_digest_length hash : String.length (hex_of_digest hash) = 64%nat.
Proof. reflexivity. Qed.

(** The check of the mining loop, [hash.substr(0, d) == string(d, '0')],
    says that the first [d] characters are '0'. *)
Lemma prefix_check_iff d s :
  String.eqb (substring 0 d s) (fill d "0") = true <-> leading_zeros d s.
Proof.
  revert s. induction d as [|d IH]; intros s.
  - split; [intros _ i Hi; lia | intros _; now destruct s].
  - destruct s as [|c s].
    + split; [discriminate|]. intros H. specialize (H 0%nat ltac:(lia)). discriminate.
    + cbn [substring fill String.eqb].
      destruct (Ascii.eqb_spec c "0") as [->|Hc].
      * rewrite IH. split.
        -- intros H [|i] Hi; [reflexivity|]. simpl. apply H. lia.
        -- intros H i Hi. apply (H (S i)). lia.
      * split; [discriminate|]. intros H.
        specialize (H 0%nat ltac:(lia)). simpl in H. congruence.
Qed.

Section Properties.

Local Open Scope list_scope.

Variable SHA256 : string -> list Byte.byte.

#[local] Abbreviation sha256_hex := (sha256_hex SHA256).
#[local] Abbreviation computeHash := (computeHash SHA256).
#[local] Abbreviation mineBlock := (mineBlock SHA256).
#[local] Abbreviation isValid := (isValid SHA256).
#[local] Abbreviation check_block := (check_block SHA256).
#[local] Abbreviation check_link := (check_link SHA256).
#[local] Abbreviation recomputedHash := (recomputedHash SHA256).
#[local] Abbreviation buildTree := (buildTree SHA256).
#[local] Abbreviation MerkleTree := (MerkleTree SHA256).
#[local] Abbreviation level_loop := (level_loop SHA256).
#[local] Abbreviation tree_loop := (tree_loop SHA256).
#[local] Abbreviation next_level := (next_level SHA256).

Lemma sha256_hex_hex data : all_chars hex_char (sha256_hex data) = true.
Proof. apply hex_of_digest_hex. Qed.

Lemma sha256_hex_length data : String.length (sha256_hex data) = 64%nat.
Proof. apply hex_of_digest_length. Qed.

(** No digest holds the marker that [isValid] looks for. *)
Lemma marker_not_in_digest data :
  String.index 0 "(Validated by:" (sha256_hex data) = None.
Proof.
  apply (index_excluded hex_char); [reflexivity | apply sha256_hex_hex].
Qed.

(** ** MerkleTree *)

Lemma level_loop_done fuel tree offset levelSize i :
  (levelSize <= i)%nat -> level_loop fuel tree offset levelSize i = tree.
Proof.
  intros H. destruct fuel; [reflexivity|]. simpl.
  destruct (Nat.ltb_spec i levelSize); [lia | reflexivity].
Qed.

Lemma at_index_middle (pre : list string) x post :
  at_index (pre ++ x :: post) (length pre) = x.
Proof. unfold at_index. induction pre; simpl; auto. Qed.

(** The [for] loop, from an even index on: [done] is the part of the level
    already read, [rest] the part still to read, [acc] the nodes already
    pushed. *)
Lemma level_loop_from fuel (pre done rest acc : list string) :
  (length rest <= fuel)%nat ->
  level_loop fuel (pre ++ (done ++ rest) ++ acc) (length pre)
             (length (done ++ rest)) (length done)
  = pre ++ (done ++ rest) ++ acc ++ next_level rest.
Proof.
  revert done rest acc.
  induction fuel as [|fuel IH]; intros done rest acc Hfuel.
  - destruct rest; simpl in Hfuel; [|lia]. simpl. now rewrite !app_nil_r.
  - destruct rest as [|a [|b rest]].
    + rewrite level_loop_done by (rewrite app_nil_r; lia).
      simpl. now rewrite !app_nil_r.
    + cbn [level_loop]. rewrite length_app. cbn [length].
      destruct (Nat.ltb_spec (length done) (length done + 1)); [|lia].
      destruct (Nat.ltb_spec (length done + 1) (length done + 1)); [lia|].
      rewrite level_loop_done by lia.
      replace (at_index _ _) with a.
      * cbn [next_level]. now rewrite <- !app_assoc.
      * rewrite <- !app_assoc, app_assoc, <- length_app. simpl.
        now rewrite at_index_middle.
    + cbn [level_loop]. rewrite length_app. cbn [length].
      destruct (Nat.ltb_spec (length done) (length done + S (S (length rest)))); [|lia].
      destruct (Nat.ltb_spec (length done + 1) (length done + S (S (length rest)))); [|lia].
      replace (at_index _ (length pre + length done)) with a.
      2:{ rewrite <- !app_assoc, app_assoc, <- length_app. simpl.
          now rewrite at_index_middle. }
      replace (at_index _ (length pre + length done + 1)) with b.
      2:{ replace (pre ++ (done ++ a :: b :: rest) ++ acc)
            with ((pre ++ done ++ [a]) ++ b :: rest ++ acc)
            by (now rewrite <- !app_assoc).
          replace (length pre + length done + 1)%nat with (length (pre ++ done ++ [a]))
            by (rewrite !length_app; simpl; lia).
          now rewrite at_index_middle. }
      specialize (IH (done ++ [a; b]) rest (acc ++ [sha256_hex (a ++ b)%string])).
      replace ((done ++ [a; b]) ++ rest) with (done ++ a :: b :: rest) in IH
        by (now rewrite <- app_assoc).
      replace (length (done ++ [a; b])) with (length done + 2)%nat in IH
        by (rewrite length_app; simpl; lia).
      rewrite length_app in IH. cbn [length] in IH.
      rewrite <- !app_assoc in *. cbn [app] in *.
      rewrite IH by (simpl in Hfuel; lia). reflexivity.
Qed.

(** One round of the [while] loop appends the next level. *)
Lemma level_loop_level (pre level : list string) :
  level_loop (length level) (pre ++ level) (length pre) (length level) 0
  = pre ++ level ++ next_level level.
Proof.
  pose proof (level_loop_from (length level) pre [] level [] (le_n _)) as H.
  simpl in H. now rewrite !app_nil_r in H.
Qed.

Lemma next_level_length level :
  length (next_level level) = Nat.div2 (S (length level)).
Proof.
  induction level as [level IH] using (induction_ltof1 _ (@length string)).
  unfold ltof in IH.
  destruct level as [|a [|b rest]]; [reflexivity | reflexivity |].
  cbn [next_level length]. rewrite IH by (simpl; lia). reflexivity.
Qed.

Lemma div2_succ_lt n : (2 <= n)%nat -> (Nat.div2 (S n) < n)%nat.
Proof.
  intros H. rewrite Nat.div2_div.
  apply Nat.Div0.div_lt_upper_bound. lia.
Qed.

(** A round of the [while] loop on a level of two nodes or more: the next
    level is appended and becomes the level of the following round. *)
Lemma tree_loop_step fuel (pre level : list string) :
  (1 < length level)%nat ->
  tree_loop (S fuel) (pre ++ level) (length pre)
  = tree_loop fuel ((pre ++ level) ++ next_level level) (length (pre ++ level)).
Proof.
  intros Hlevel. cbn [tree_loop]. rewrite length_app.
  replace (length pre + length level - length pre)%nat with (length level) by lia.
  destruct (Nat.ltb_spec 1 (length level)); [|lia].
  now rewrite level_loop_level, <- app_assoc.
Qed.

(** The [while] loop returns as soon as the fuel is at least the size of
    the level it starts from. *)
Lemma tree_loop_returns fuel (pre level : list string) :
  (length level <= fuel)%nat ->
  exists tree, tree_loop fuel (pre ++ level) (length pre) = Some tree
               /\ exists upper, tree = pre ++ level ++ upper.
Proof.
  revert pre level. induction fuel as [|fuel IH]; intros pre level Hfuel.
  - destruct level; simpl in Hfuel; [|lia].
    exists (pre ++ []). split; [|now exists []].
    simpl. rewrite app_nil_r, Nat.sub_diag. reflexivity.
  - cbn [tree_loop]. rewrite length_app.
    replace (length pre + length level - length pre)%nat with (length level) by lia.
    destruct (Nat.ltb_spec 1 (length level)) as [Hlt|Hge].
    + rewrite level_loop_level.
      destruct (IH (pre ++ level) (next_level level)) as (tree & Htree & upper & Hupper).
      { rewrite next_level_length. pose proof (div2_succ_lt (length level)). lia. }
      rewrite length_app, <- app_assoc in Htree.
      exists tree. split; [exact Htree|].
      exists (next_level level ++ upper). now rewrite Hupper, <- !app_assoc.
    + exists (pre ++ level). split; [reflexivity|]. exists []. now rewrite app_nil_r.
Qed.

(** [buildTree] returns on every input. *)
Lemma buildTree_total leaves : exists tree, buildTree leaves = Some tree.
Proof.
  unfold buildTree.
  destruct (tree_loop_returns (length leaves) [] (map sha256_hex leaves))
    as (tree & H & _); [now rewrite length_map|].
  exists tree. exact H.
Qed.

(** C5. A level with an odd number of nodes, the pairs [pairs] followed by
    a last node [x], is answered by the digest of each pair, left then
    right, followed by [x] itself: the last node is promoted unchanged and
    no node is hashed with itself or twice. For the leaves [A; B; C] the
    tree is level 0 = [H A; H B; H C], level 1 = [H (H A + H B); H C] and the
    root H (level1[0] + level1[1]). *)
Theorem odd_level_promotes_last_node :
  (forall (pre : list string) (pairs : list (string * string)) (x : string),
      let level := (flatten_pairs pairs ++ [x]) in
      level_loop (length level) (pre ++ level) (length pre) (length level) 0
      = (pre ++ level)
          ++ map (fun p => sha256_hex (fst p ++ snd p)%string) pairs ++ [x])
  /\ (forall A B C : string,
        let level1 := [sha256_hex (sha256_hex A ++ sha256_hex B)%string; sha256_hex C] in
        let root := sha256_hex (at_index level1 0 ++ at_index level1 1)%string in
        buildTree [A; B; C]
        = Some ([sha256_hex A; sha256_hex B; sha256_hex C] ++ level1 ++ [root])
        /\ getRoot (MerkleTree [A; B; C]) = root).
Proof.
  split.
  - intros pre pairs x level. rewrite level_loop_level, <- app_assoc.
    do 2 f_equal. subst level.
    induction pairs as [|[a b] pairs IH]; [reflexivity|].
    cbn [flatten_pairs flat_map map fst snd app next_level].
    f_equal. exact IH.
  - intros A B C. split; reflexivity.
Qed.

(** C8. The root of no leaves is the empty string, returned as a value, and
    the root of a single leaf is the digest of that leaf. *)
Theorem merkle_root_edge_cases :
  buildTree [] = Some []
  /\ getRoot (MerkleTree []) = ""
  /\ (forall item : string,
        buildTree [item] = Some [sha256_hex item]
        /\ getRoot (MerkleTree [item]) = sha256_hex item).
Proof. repeat split. Qed.

(** ** Mining *)

#[local] Abbreviation qualifies := (qualifies SHA256).

Lemma computeHash_same_header b b' n v :
  same_header b b' -> computeHash b' n v = computeHash b n v.
Proof.
  intros (Hi & Hp & Hm & _ & Ht). unfold computeHash.
  now rewrite Hi, Hp, Hm, Ht.
Qed.

Lemma mineBlock_step fuel d b :
  mineBlock (S fuel) d b
  = if String.eqb (substring 0 d (computeHash b (nonce b) "")) (fill d "0")
    then Done (set_hash b (computeHash b (nonce b) ""))
    else mineBlock fuel d
           (set_nonce (set_hash b (computeHash b (nonce b) "")) (wrap64 (nonce b + 1))).
Proof. reflexivity. Qed.

(** A run of [mineBlock] that returns leaves a block sealed by its nonce. *)
Lemma mineBlock_sealed fuel d b b' :
  mineBlock fuel d b = Done b' ->
  same_header b b' /\ hash b' = computeHash b' (nonce b') ""
  /\ leading_zeros d (hash b').
Proof.
  revert b b'. induction fuel as [|fuel IH]; intros b b' Hrun; [discriminate|].
  rewrite mineBlock_step in Hrun.
  destruct (String.eqb _ _) eqn:Hcheck.
  - injection Hrun as <-. split; [repeat split|].
    split; [reflexivity|]. now apply prefix_check_iff.
  - apply IH in Hrun as (Hsame & Hhash & Hzeros).
    split; [exact Hsame | split; assumption].
Qed.

(** More fuel does not change the block that a run returns. *)
Lemma mineBlock_fuel_mono fuel fuel' d b b' :
  mineBlock fuel d b = Done b' -> (fuel <= fuel')%nat ->
  mineBlock fuel' d b = Done b'.
Proof.
  revert fuel' b. induction fuel as [|fuel IH]; intros fuel' b Hrun Hle; [discriminate|].
  destruct fuel' as [|fuel']; [lia|].
  rewrite mineBlock_step in *.
  destruct (String.eqb _ _); [exact Hrun|].
  apply IH; [exact Hrun | lia].
Qed.

(** The loop from the nonce [n - j] reaches the first qualifying nonce, which
    is at most [n]. *)
Lemma mineBlock_from d n (j : nat) b :
  nonce b = n - Z.of_nat j -> 0 <= nonce b -> n < 2 ^ 64 ->
  qualifies b d n ->
  exists fuel b',
    mineBlock fuel d b = Done b'
    /\ nonce b <= nonce b' <= n
    /\ qualifies b d (nonce b')
    /\ (forall m, nonce b <= m < nonce b' -> ~ qualifies b d m).
Proof.
  revert b. induction j as [|j IH]; intros b Hnonce Hpos Hmax Hq.
  - exists 1%nat, (set_hash b (computeHash b (nonce b) "")).
    assert (Hn : nonce b = n) by lia.
    rewrite mineBlock_step.
    replace (String.eqb _ _) with true
      by (symmetry; apply prefix_check_iff; now rewrite Hn).
    cbn [nonce set_hash]. rewrite Hn.
    repeat split; try lia; assumption.
  - destruct (String.eqb (substring 0 d (computeHash b (nonce b) "")) (fill d "0"))
      eqn:Hcheck.
    + exists 1%nat, (set_hash b (computeHash b (nonce b) "")).
      rewrite mineBlock_step, Hcheck. cbn [nonce set_hash].
      split; [reflexivity|]. split; [lia|].
      split; [now apply prefix_check_iff | intros m Hm; lia].
    + set (b1 := set_nonce (set_hash b (computeHash b (nonce b) ""))
                           (wrap64 (nonce b + 1))).
      assert (Hwrap : wrap64 (nonce b + 1) = nonce b + 1)
        by (unfold wrap64; apply Z.mod_small; lia).
      destruct (IH b1) as (fuel & b' & Hrun & Hrange & Hq' & Hleast).
      * subst b1. cbn [nonce set_nonce]. lia.
      * subst b1. cbn [nonce set_nonce]. lia.
      * exact Hmax.
      * exact Hq.
      * replace (nonce b1) with (nonce b + 1) in * by (subst b1; now cbn).
        exists (S fuel), b'. rewrite mineBlock_step, Hcheck.
        split; [exact Hrun|]. split; [lia|]. split; [exact Hq'|].
        intros m Hm Hqm.
        destruct (Z.eq_dec m (nonce b)) as [->|Hne].
        -- apply prefix_check_iff in Hqm. congruence.
        -- apply (Hleast m); [lia | exact Hqm].
Qed.

(** C4. When some nonce [n] qualifies for the difficulty [d], mining a block
    whose nonce is 0 returns, once the fuel covers the search; the nonce it
    stores is the least one whose digest of (index, previousHash,
    merkleRoot, timestamp, nonce) starts with [d] characters '0', the hash
    it stores is that digest, and every run that returns stores the same. *)
Theorem mining_stops_at_least_nonce (d : nat) (b : Block) (n : Z) :
  nonce b = 0 -> 0 <= n < 2 ^ 64 -> qualifies b d n ->
  exists fuel b',
    mineBlock fuel d b = Done b'
    /\ 0 <= nonce b' <= n
    /\ qualifies b d (nonce b')
    /\ (forall m, 0 <= m < nonce b' -> ~ qualifies b d m)
    /\ hash b' = computeHash b (nonce b') ""
    /\ hash b' = sha256_hex (put_uint (index b) ++ previousHash b ++ merkleRoot b
                              ++ put_uint (timestamp b) ++ put_uint (nonce b'))%string
    /\ leading_zeros d (hash b')
    /\ (forall fuel' b'', mineBlock fuel' d b = Done b'' -> b'' = b').
Proof.
  intros Hzero Hn Hq.
  destruct (mineBlock_from d n (Z.to_nat n) b) as (fuel & b' & Hrun & Hrange & Hq' & Hleast);
    [lia | lia | lia | exact Hq |].
  rewrite Hzero in *.
  destruct (mineBlock_sealed _ _ _ _ Hrun) as (Hsame & Hhash & Hzeros).
  exists fuel, b'. repeat split; try assumption; try lia.
  - rewrite Hhash. now apply computeHash_same_header.
  - rewrite Hhash, (computeHash_same_header b b') by assumption. reflexivity.
  - intros fuel' b'' Hrun'.
    apply (mineBlock_fuel_mono _ (Nat.max fuel fuel')) in Hrun; [|lia].
    apply (mineBlock_fuel_mono _ (Nat.max fuel fuel')) in Hrun'; [|lia].
    congruence.
Qed.

(** *** The loop of Exercice2.cpp *)

Lemma Exercice2_mineBlock_simulation fuel d (b : Exercice2.Block) :
  as_Exercice4 <$> Exercice2.mineBlock SHA256 fuel d b
  = mineBlock fuel d (as_Exercice4 b).
Proof.
  revert b. induction fuel as [|fuel IH]; intros b; [reflexivity|].
  cbn [Exercice2.mineBlock]. rewrite mineBlock_step.
  change (computeHash (as_Exercice4 b) (nonce (as_Exercice4 b)) "")
    with (Exercice2.computeHash SHA256 b (Exercice2.nonce b)).
  cbn [Exercice2.hash Exercice2.set_hash].
  destruct (String.eqb _ _); [reflexivity|].
  rewrite IH. reflexivity.
Qed.

(** X21. When some nonce [n] qualifies for the difficulty [d], mining a block
    of Exercice2.cpp whose nonce is 0 returns, once the fuel covers the
    search, with the least nonce whose digest of (index, previousHash, data,
    timestamp, nonce) starts with [d] characters '0', and with that digest
    as its hash. *)
Corollary Exercice2_mining_stops_at_least_nonce (d : nat) (b : Exercice2.Block) (n : Z) :
  Exercice2.nonce b = 0 -> 0 <= n < 2 ^ 64 ->
  leading_zeros d (Exercice2.computeHash SHA256 b n) ->
  exists fuel b',
    Exercice2.mineBlock SHA256 fuel d b = Done b'
    /\ 0 <= Exercice2.nonce b' <= n
    /\ (forall m, 0 <= m < Exercice2.nonce b' ->
                  ~ leading_zeros d (Exercice2.computeHash SHA256 b m))
    /\ Exercice2.hash b' = Exercice2.computeHash SHA256 b (Exercice2.nonce b')
    /\ leading_zeros d (Exercice2.hash b').
Proof.
  intros Hzero Hn Hq.
  destruct (mineBlock_from d n (Z.to_nat n) (as_Exercice4 b))
    as (fuel & b4 & Hrun & Hrange & Hq' & Hleast);
    [cbn; lia | cbn; lia | lia | exact Hq |].
  rewrite <- Exercice2_mineBlock_simulation in Hrun.
  destruct (Exercice2.mineBlock SHA256 fuel d b) as [b'| |] eqn:Hrun2; try discriminate.
  injection Hrun as <-. cbn [nonce as_Exercice4] in *. rewrite Hzero in *.
  exists fuel, b'. split; [exact Hrun2|]. split; [lia|]. split; [exact Hleast|].
  pose proof (Exercice2_mineBlock_simulation fuel d b) as Hsim.
  rewrite Hrun2 in Hsim. symmetry in Hsim.
  apply mineBlock_sealed in Hsim as (Hsame & Hhash & Hzeros).
  cbn [hash as_Exercice4] in Hhash, Hzeros. split; [|exact Hzeros].
  rewrite Hhash. cbn [nonce as_Exercice4].
  now apply (computeHash_same_header (as_Exercice4 b) (as_Exercice4 b')).
Qed.

(** ** Validation *)

#[local] Abbreviation PoW_reachable := (PoW_reachable SHA256).
#[local] Abbreviation PoW_addBlock := (PoW_addBlock SHA256).
#[local] Abbreviation PoWBlockchain := (PoWBlockchain SHA256).
#[local] Abbreviation forgeBlock := (forgeBlock SHA256).

(** A block whose stored hash is a digest is re-hashed without a validator:
    the marker is never found in it. *)
Lemma recomputedHash_of_digest b data :
  hash b = sha256_hex data -> recomputedHash b = computeHash b (nonce b) "".
Proof.
  intros H. unfold recomputedHash.
  now rewrite H, marker_not_in_digest.
Qed.

Lemma forallb_pointwise {A} (f g : A -> bool) (l : list A) :
  (forall x, In x l -> f x = g x) -> forallb f l = forallb g l.
Proof.
  induction l as [|x l IH]; intros H; [reflexivity|]. simpl.
  rewrite (H x) by now left. f_equal. apply IH. intros y Hy. apply H. now right.
Qed.

Lemma isValid_singleton b : isValid [b] = true.
Proof. reflexivity. Qed.

(** Validation of a chain with one more block: the rounds of the chain
    before, then the round of the new block against the former tip. *)
Lemma isValid_snoc (chain : list Block) tip b :
  last chain = Some tip ->
  isValid (chain ++ [b]) = isValid chain && check_link tip b.
Proof.
  intros Htip. unfold isValid.
  assert (Hlen : (0 < length chain)%nat)
    by (destruct chain; [discriminate | simpl; lia]).
  rewrite length_app. cbn [length].
  replace (length chain + 1 - 1)%nat with (S (length chain - 1)) by lia.
  rewrite seq_S, forallb_app. f_equal.
  - apply forallb_pointwise. intros i Hi. apply in_seq in Hi.
    unfold check_block.
    rewrite !lookup_app_l by lia. reflexivity.
  - cbn [forallb]. rewrite andb_true_r. unfold check_block.
    replace (1 + (length chain - 1))%nat with (length chain) by lia.
    rewrite lookup_app_r by lia. rewrite Nat.sub_diag. cbn [lookup list_lookup].
    rewrite lookup_app_l by lia.
    rewrite last_lookup in Htip.
    replace (length chain - 1)%nat with (Nat.pred (length chain)) by lia.
    now rewrite Htip.
Qed.

(** The links of a chain: each block after the genesis names the hash of
    its predecessor and stores the digest of its own fields and nonce, which
    starts with [diff] zeros. *)
Lemma PoW_links_snoc (P : Block -> Block -> Prop) (chain : list Block) tip b :
  last chain = Some tip ->
  (forall i current previous,
      (0 < i)%nat -> chain !! i = Some current ->
      chain !! (i - 1)%nat = Some previous -> P previous current) ->
  P tip b ->
  forall i current previous,
    (0 < i)%nat -> (chain ++ [b]) !! i = Some current ->
    (chain ++ [b]) !! (i - 1)%nat = Some previous -> P previous current.
Proof.
  intros Htip Hchain Hnew i current previous Hi Hcur Hprev.
  rewrite last_lookup in Htip.
  destruct (Nat.lt_ge_cases i (length chain)) as [Hlt|Hge].
  - rewrite lookup_app_l in Hcur, Hprev by lia. eauto.
  - apply lookup_lt_Some in Hcur as Hbound. rewrite length_app in Hbound.
    cbn [length] in Hbound.
    assert (i = length chain) as -> by lia.
    rewrite lookup_app_r, Nat.sub_diag in Hcur by lia.
    rewrite lookup_app_l in Hprev by lia.
    replace (length chain - 1)%nat with (Nat.pred (length chain)) in Hprev by lia.
    cbn in Hcur. congruence.
Qed.

(** The invariant of the chains of a proof-of-work blockchain. *)
Lemma PoW_reachable_invariant (diff : nat) (chain : list Block) :
  PoW_reachable diff chain ->
  chain <> []
  /\ (forall i current previous,
        (0 < i)%nat -> chain !! i = Some current ->
        chain !! (i - 1)%nat = Some previous ->
        previousHash current = hash previous
        /\ hash current = computeHash current (nonce current) ""
        /\ hash current = recomputedHash current)
  /\ isValid chain = true.
Proof.
  intros Hreach.
  induction Hreach as [fuel now chain Hnew | fuel chain txs now chain' Hreach IH Hadd].
  - unfold PoWBlockchain, Blockchain in Hnew. cbn in Hnew.
    destruct (mineBlock fuel diff _) as [mined| |] eqn:Hmine; try discriminate.
    injection Hnew as <-. split; [discriminate|]. split; [|reflexivity].
    intros i current previous Hi Hcur. apply lookup_lt_Some in Hcur.
    simpl in Hcur. lia.
  - destruct IH as (Hne & Hlinks & Hvalid).
    unfold PoW_addBlock, getLastBlock in Hadd.
    destruct (last chain) as [tip|] eqn:Htip; [|discriminate]. cbn in Hadd.
    destruct (mineBlock fuel diff _) as [mined| |] eqn:Hmine; try discriminate.
    injection Hadd as <-.
    apply mineBlock_sealed in Hmine as ((_ & Hprev & _) & Hhash & _).
    cbn in Hprev.
    assert (Hre : hash mined = recomputedHash mined).
    { rewrite (recomputedHash_of_digest mined _ Hhash). exact Hhash. }
    split; [now destruct chain|]. split.
    + apply (PoW_links_snoc _ chain tip mined Htip Hlinks). auto.
    + rewrite (isValid_snoc chain tip mined Htip), Hvalid.
      unfold check_link. rewrite Hprev, String.eqb_refl.
      rewrite <- Hre, String.eqb_refl. reflexivity.
Qed.

(** C6. In every chain that a proof-of-work blockchain can hold, each block
    after the genesis names the hash of its predecessor and stores the
    digest recomputed from its own fields and nonce, which is also the
    digest that [isValid] expects; [isValid] returns true. *)
Theorem PoW_chain_is_valid (diff : nat) (chain : list Block) :
  PoW_reachable diff chain ->
  (forall i current previous,
      (0 < i)%nat -> chain !! i = Some current ->
      chain !! (i - 1)%nat = Some previous ->
      previousHash current = hash previous
      /\ hash current = computeHash current (nonce current) ""
      /\ hash current = recomputedHash current)
  /\ isValid chain = true.
Proof.
  intros Hreach. now apply PoW_reachable_invariant in Hreach as (_ & H).
Qed.

(** C10. [isValid] reads nothing of block 0 but its stored hash: two chains
    that agree on the hash of block 0 and on all later blocks get the same
    answer, whatever the other fields of block 0 are. *)
Theorem genesis_content_is_not_validated (genesis genesis' : Block) (rest : list Block) :
  hash genesis = hash genesis' ->
  isValid (genesis :: rest) = isValid (genesis' :: rest).
Proof.
  intros Hhash. unfold isValid. cbn [length].
  apply forallb_pointwise. intros i Hi. apply in_seq in Hi.
  unfold check_block.
  destruct i as [|[|i]]; [lia | |].
  - cbn. destruct rest as [|current rest']; [reflexivity|]. cbn.
    unfold check_link. now rewrite Hhash.
  - reflexivity.
Qed.

(** Neither side of a round of [isValid] reads the transactions. *)
Lemma check_link_transactions previous current txs txs' :
  check_link (set_transactions previous txs) (set_transactions current txs')
  = check_link previous current.
Proof. reflexivity. Qed.

Lemma set_transactions_same b : set_transactions b (transactions b) = b.
Proof. now destruct b. Qed.

(** Setting the transactions of one block of a chain leaves the rounds of
    [isValid] as they were. *)
Lemma isValid_alter_transactions (chain : list Block) (i : nat)
    (g : Block -> list Transaction) :
  isValid (alter (fun b => set_transactions b (g b)) i chain) = isValid chain.
Proof.
  unfold isValid. rewrite length_alter.
  apply forallb_pointwise. intros k _. unfold check_block.
  set (f := fun b => set_transactions b (g b)).
  assert (Hlook : forall n, exists g' : Block -> list Transaction,
             alter f i chain !! n = (fun b => set_transactions b (g' b)) <$> chain !! n).
  { intros n. destruct (decide (n = i)) as [->|Hne].
    - exists g. now rewrite list_lookup_alter_eq.
    - exists transactions. rewrite list_lookup_alter_ne by congruence.
      destruct (chain !! n) as [b|]; [|reflexivity]. cbn.
      now rewrite set_transactions_same. }
  destruct (Hlook k) as (g1 & ->). destruct (Hlook (k - 1)%nat) as (g2 & ->).
  destruct (chain !! k) as [current|]; [|reflexivity].
  destruct (chain !! (k - 1)%nat) as [previous|]; [|reflexivity].
  cbn. apply check_link_transactions.
Qed.

(** C2, as the code has it. Mutating the amount of a transaction of an
    appended block, the other stored fields left as they were, does not
    change the answer of [isValid]: validation hashes the stored
    [merkleRoot] and never derives it again from the transactions. *)
Theorem amount_tampering_is_not_detected (chain : list Block) (i j : nat) (a : double) :
  isValid (tamper_amount chain i j a) = isValid chain.
Proof. unfold tamper_amount. apply isValid_alter_transactions. Qed.

(** On a chain held by a proof-of-work blockchain the answer stays true. *)
Corollary tampered_PoW_chain_still_valid diff chain i j a :
  PoW_reachable diff chain -> isValid (tamper_amount chain i j a) = true.
Proof.
  intros H. unfold tamper_amount. rewrite isValid_alter_transactions.
  now apply PoW_reachable_invariant in H as (_ & _ & H).
Qed.

(** A forged block is re-hashed without its validator, so the round of
    [isValid] on it passes only if the digest with the validator equals the
    digest without. *)
Lemma forged_block_check (chain : list Block) tip newBlock validator :
  last chain = Some tip ->
  isValid (chain ++ [forgeBlock newBlock validator]) = true ->
  computeHash newBlock 0 validator = computeHash newBlock 0 "".
Proof.
  intros Htip Hvalid. rewrite (isValid_snoc _ tip _ Htip) in Hvalid.
  apply andb_true_iff in Hvalid as [_ Hlink].
  unfold check_link in Hlink.
  destruct (negb (String.eqb (previousHash _) _)); [discriminate|].
  destruct (String.eqb (hash _) _) eqn:Heq; [|discriminate].
  apply String.eqb_eq in Heq.
  erewrite recomputedHash_of_digest in Heq
    by (cbn; unfold computeHash; reflexivity).
  exact Heq.
Qed.

(** ** More on the Merkle tree *)

#[local] Abbreviation reduce_levels := (reduce_levels SHA256).
#[local] Abbreviation root_by_levels := (root_by_levels SHA256).

Lemma sha256_hex_is_digest data : is_digest (sha256_hex data).
Proof. split; [apply sha256_hex_length | apply sha256_hex_hex]. Qed.

(** X1. Whatever bytes the digest primitive leaves, [sha256_hex] writes 64
    characters, all of them lowercase hexadecimal digits. *)
Theorem sha256_hex_writes_64_hex_digits (data : string) :
  String.length (sha256_hex data) = 64%nat
  /\ all_chars hex_char (sha256_hex data) = true.
Proof. split; [apply sha256_hex_length | apply sha256_hex_hex]. Qed.

Lemma next_level_Forall (P : string -> Prop) level :
  (forall data, P (sha256_hex data)) -> Forall P level -> Forall P (next_level level).
Proof.
  intros HP. induction level as [level IH] using (induction_ltof1 _ (@length string)).
  unfold ltof in IH. intros Hall.
  destruct level as [|a [|b rest]]; [constructor | exact Hall |].
  cbn [next_level]. constructor; [apply HP|].
  apply IH; [simpl; lia|].
  apply Forall_cons in Hall as [_ Hall]. now apply Forall_cons in Hall as [_ Hall].
Qed.

Lemma next_level_nonempty level : level <> [] -> next_level level <> [].
Proof. destruct level as [|a [|b rest]]; [congruence | discriminate | discriminate]. Qed.

Lemma reduce_levels_step fuel level :
  (1 < length level)%nat ->
  reduce_levels (S fuel) level = reduce_levels fuel (next_level level).
Proof.
  intros H.
  change (reduce_levels (S fuel) level)
    with (if (1 <? length level)%nat
          then reduce_levels fuel (next_level level) else level).
  destruct (Nat.ltb_spec 1 (length level)); [reflexivity | lia].
Qed.

Lemma reduce_levels_stop fuel level :
  (length level <= 1)%nat -> reduce_levels fuel level = level.
Proof.
  intros H. destruct fuel; [reflexivity|].
  change (reduce_levels (S fuel) level)
    with (if (1 <? length level)%nat
          then reduce_levels fuel (next_level level) else level).
  destruct (Nat.ltb_spec 1 (length level)); [lia | reflexivity].
Qed.

(** The tree that the [while] loop returns: the levels above [level] are
    appended, the last node is the one the reduction by levels ends with,
    and nothing but digests and promoted nodes is appended. *)
Lemma tree_loop_levels (P : string -> Prop) fuel (pre level : list string) :
  (forall data, P (sha256_hex data)) ->
  (length level <= fuel)%nat -> Forall P level ->
  exists upper,
    tree_loop fuel (pre ++ level) (length pre) = Some (pre ++ level ++ upper)
    /\ last (level ++ upper) = last (reduce_levels fuel level)
    /\ (length (reduce_levels fuel level) <= 1)%nat
    /\ Forall P upper.
Proof.
  intros HP. revert pre level.
  induction fuel as [|fuel IH]; intros pre level Hfuel Hall.
  - destruct level; simpl in Hfuel; [|lia].
    exists []. rewrite !app_nil_r. cbn [tree_loop reduce_levels length app].
    rewrite Nat.sub_diag. cbn. repeat split; [lia | constructor].
  - destruct (Nat.lt_ge_cases 1 (length level)) as [Hlt|Hge].
    + rewrite tree_loop_step by exact Hlt.
      destruct (IH (pre ++ level) (next_level level)) as (upper & Hrun & Hlast & Hlen & Hupper).
      { rewrite next_level_length. pose proof (div2_succ_lt (length level)). lia. }
      { now apply next_level_Forall. }
      exists (next_level level ++ upper).
      split; [now rewrite Hrun, <- !app_assoc|].
      rewrite reduce_levels_step by exact Hlt.
      split; [|split; [exact Hlen|]].
      * rewrite last_app.
        destruct (last (next_level level ++ upper)) eqn:E; [exact Hlast|].
        exfalso. apply last_None in E.
        apply app_eq_nil in E as [E _].
        apply (next_level_nonempty level); [|exact E].
        destruct level; [simpl in Hlt; lia | discriminate].
      * apply Forall_app. split; [now apply next_level_Forall | exact Hupper].
    + exists []. rewrite app_nil_r, reduce_levels_stop by lia.
      repeat split; [|lia|constructor].
      cbn [tree_loop]. rewrite length_app.
      replace (length pre + length level - length pre)%nat with (length level) by lia.
      destruct (Nat.ltb_spec 1 (length level)); [lia | reflexivity].
Qed.

Lemma MerkleTree_nodes (leaves : list string) :
  exists upper,
    buildTree leaves = Some (map sha256_hex leaves ++ upper)
    /\ MerkleTree leaves = map sha256_hex leaves ++ upper
    /\ Forall is_digest (map sha256_hex leaves ++ upper)
    /\ last (map sha256_hex leaves ++ upper)
       = last (reduce_levels (length leaves) (map sha256_hex leaves))
    /\ (length (reduce_levels (length leaves) (map sha256_hex leaves)) <= 1)%nat.
Proof.
  assert (Hleaves : Forall is_digest (map sha256_hex leaves)).
  { induction leaves; constructor; [apply sha256_hex_is_digest | assumption]. }
  destruct (tree_loop_levels is_digest (length leaves) [] (map sha256_hex leaves)
              sha256_hex_is_digest) as (upper & Hrun & Hlast & Hlen & Hupper);
    [now rewrite length_map | exact Hleaves |].
  exists upper. unfold MerkleTree, buildTree. cbn in Hrun. rewrite Hrun.
  repeat split; try assumption. apply Forall_app. now split.
Qed.

(** X2. [buildTree] keeps the digests of the leaves, in the order of the
    leaves, at the front of [tree], and every entry of [tree] is a digest:
    64 lowercase hexadecimal characters. *)
Theorem merkle_tree_layout (leaves : list string) :
  firstn (length leaves) (MerkleTree leaves) = map sha256_hex leaves
  /\ Forall is_digest (MerkleTree leaves).
Proof.
  destruct (MerkleTree_nodes leaves) as (upper & _ & -> & Hall & _).
  split; [|exact Hall].
  rewrite <- (length_map sha256_hex leaves) at 1. now rewrite take_app_length.
Qed.

(** X3. The root that [getRoot] returns is the node left by the reduction
    level by level: pairs hashed left then right, an odd last node carried
    up, until one node remains. *)
Theorem root_is_reduction_by_levels (leaves : list string) :
  getRoot (MerkleTree leaves) = root_by_levels leaves.
Proof.
  destruct (MerkleTree_nodes leaves) as (upper & _ & -> & _ & Hlast & Hlen).
  unfold getRoot, root_by_levels. rewrite Hlast.
  destruct (reduce_levels (length leaves) (map sha256_hex leaves)) as [|root [|]];
    [reflexivity | reflexivity | simpl in Hlen; lia].
Qed.

(** X4. The root is the empty string exactly when there are no leaves, and
    a digest of 64 hexadecimal characters otherwise. *)
Theorem root_is_empty_or_digest (leaves : list string) :
  (getRoot (MerkleTree leaves) = "" <-> leaves = [])
  /\ (leaves <> [] -> is_digest (getRoot (MerkleTree leaves))).
Proof.
  assert (Hdigest : leaves <> [] -> is_digest (getRoot (MerkleTree leaves))).
  { intros Hleaves.
    destruct (MerkleTree_nodes leaves) as (upper & _ & -> & Hall & _).
    unfold getRoot. destruct (last _) as [root|] eqn:E.
    - apply last_Some_elem_of in E.
      now apply (proj1 (Forall_forall _ _) Hall).
    - apply last_None, app_eq_nil in E as [E _].
      destruct leaves; [congruence | discriminate]. }
  split; [|exact Hdigest]. split.
  - intros Hroot. destruct leaves as [|l leaves]; [reflexivity|]. exfalso.
    destruct (Hdigest ltac:(discriminate)) as [Hlen _].
    rewrite Hroot in Hlen. discriminate.
  - intros ->. reflexivity.
Qed.

Lemma reduce_levels_fuel fuel fuel' level :
  (length level <= fuel)%nat -> (length level <= fuel')%nat ->
  reduce_levels fuel level = reduce_levels fuel' level.
Proof.
  revert fuel' level. induction fuel as [|fuel IH]; intros fuel' level H H'.
  - destruct level; [|simpl in H; lia]. now rewrite !reduce_levels_stop by (simpl; lia).
  - destruct (Nat.lt_ge_cases 1 (length level)) as [Hlt|Hge].
    + destruct fuel' as [|fuel']; [lia|].
      rewrite !reduce_levels_step by exact Hlt.
      pose proof (div2_succ_lt (length level)).
      apply IH; rewrite next_level_length; lia.
    + now rewrite !reduce_levels_stop by lia.
Qed.

Lemma next_level_flatten_pairs (pairs : list (string * string)) :
  next_level (map sha256_hex (flatten_pairs pairs))
  = map sha256_hex (map (fun p => sha256_hex (fst p) ++ sha256_hex (snd p))%string pairs).
Proof.
  induction pairs as [|[a b] pairs IH]; [reflexivity|].
  cbn [flatten_pairs flat_map map app next_level fst snd]. f_equal. exact IH.
Qed.

Lemma flatten_pairs_length (pairs : list (string * string)) :
  length (flatten_pairs pairs) = (2 * length pairs)%nat.
Proof.
  induction pairs as [|p pairs IH]; [reflexivity|].
  cbn [flatten_pairs flat_map app length]. fold (flatten_pairs pairs). lia.
Qed.

(** X5. Leaves and inner nodes are hashed alike: the tree over the leaves
    a1, b1, a2, b2, ... has the root of the tree whose leaves are the
    concatenated digests H(a1)+H(b1), H(a2)+H(b2), ... *)
Theorem root_of_pairs_is_root_of_concatenated_digests (pairs : list (string * string)) :
  getRoot (MerkleTree (flatten_pairs pairs))
  = getRoot (MerkleTree
               (map (fun p => sha256_hex (fst p) ++ sha256_hex (snd p))%string pairs)).
Proof.
  destruct (MerkleTree_nodes (flatten_pairs pairs)) as (u1 & _ & -> & _ & Hlast1 & _).
  destruct (MerkleTree_nodes
              (map (fun p => sha256_hex (fst p) ++ sha256_hex (snd p))%string pairs))
    as (u2 & _ & -> & _ & Hlast2 & _).
  unfold getRoot. rewrite Hlast1, Hlast2.
  enough (Hsame :
    reduce_levels (length (flatten_pairs pairs)) (map sha256_hex (flatten_pairs pairs))
    = reduce_levels
        (length (map (fun p => sha256_hex (fst p) ++ sha256_hex (snd p))%string pairs))
        (map sha256_hex
             (map (fun p => sha256_hex (fst p) ++ sha256_hex (snd p))%string pairs)))
    by now rewrite Hsame.
  destruct pairs as [|p pairs]; [reflexivity|].
  pose proof (flatten_pairs_length (p :: pairs)) as Hlen. cbn [length] in Hlen.
  replace (length (flatten_pairs (p :: pairs))) with (S (S (2 * length pairs))) by lia.
  rewrite reduce_levels_step by (rewrite length_map, Hlen; lia).
  rewrite next_level_flatten_pairs.
  apply reduce_levels_fuel; rewrite !length_map; cbn [length]; lia.
Qed.

(** ** More on mining *)

Lemma length_fill n c : String.length (fill n c) = n.
Proof. induction n as [|n IH]; simpl; [reflexivity | now rewrite IH]. Qed.

Lemma length_substring_le d s : (String.length (substring 0 d s) <= String.length s)%nat.
Proof.
  revert s. induction d as [|d IH]; intros s.
  - destruct s; simpl; lia.
  - destruct s as [|c s]; [simpl; lia|]. cbn [substring String.length].
    specialize (IH s). lia.
Qed.

(** X6. The difficulty is a number of hexadecimal characters of a digest of
    64: above 64 the test of the mining loop never holds, and neither
    [mineBlock] nor the constructor of the chain returns. *)
Theorem mining_spins_above_64 (fuel d : nat) :
  (64 < d)%nat ->
  (forall b, mineBlock fuel d b = Spinning)
  /\ (forall now, PoWBlockchain fuel d now = Spinning)
  /\ (forall chain tip txs now,
         last chain = Some tip -> PoW_addBlock fuel d chain txs now = Spinning).
Proof.
  intros Hd.
  assert (Hmine : forall b, mineBlock fuel d b = Spinning).
  { induction fuel as [|fuel' IH]; intros b; [reflexivity|].
    rewrite mineBlock_step.
    destruct (String.eqb_spec (substring 0 d (computeHash b (nonce b) "")) (fill d "0"))
      as [Heq|_]; [exfalso | apply IH].
    apply (f_equal String.length) in Heq. rewrite length_fill in Heq.
    pose proof (length_substring_le d (computeHash b (nonce b) "")) as Hle.
    unfold computeHash in Hle. rewrite sha256_hex_length in Hle.
    unfold computeHash in Heq. lia. }
  split; [exact Hmine|]. split.
  - intros now. unfold PoWBlockchain. cbn. now rewrite Hmine.
  - intros chain tip txs now Htip. unfold PoW_addBlock, getLastBlock.
    rewrite Htip. cbn. now rewrite Hmine.
Qed.

Lemma mineBlock_difficulty_zero fuel b b' :
  mineBlock fuel 0 b = Done b' -> b' = set_hash b (computeHash b (nonce b) "").
Proof.
  destruct fuel as [|fuel]; [discriminate|]. rewrite mineBlock_step.
  change (substring 0 0 (computeHash b (nonce b) "")) with "".
  cbn [fill String.eqb]. congruence.
Qed.

(** X7. At difficulty 0 mining returns at the first attempt, the nonce left
    as it was; in a chain of difficulty 0 every block has the nonce 0. *)
Theorem no_search_at_difficulty_zero :
  (forall fuel b,
      mineBlock (S fuel) 0 b = Done (set_hash b (computeHash b (nonce b) "")))
  /\ (forall chain, PoW_reachable 0 chain -> Forall (fun b => nonce b = 0) chain).
Proof.
  split; [reflexivity|].
  intros chain Hreach.
  induction Hreach as [fuel now chain Hnew | fuel chain txs now chain' Hreach IH Hadd].
  - unfold PoWBlockchain, Blockchain in Hnew. cbn in Hnew.
    destruct (mineBlock fuel 0 _) as [mined| |] eqn:Hmine; try discriminate.
    injection Hnew as <-. apply mineBlock_difficulty_zero in Hmine as ->.
    repeat constructor.
  - unfold PoW_addBlock, getLastBlock in Hadd.
    destruct (last chain) as [tip|]; [|discriminate]. cbn in Hadd.
    destruct (mineBlock fuel 0 _) as [mined| |] eqn:Hmine; try discriminate.
    injection Hadd as <-. apply mineBlock_difficulty_zero in Hmine as ->.
    apply Forall_app. split; [exact IH | repeat constructor].
Qed.

(** Mining reads the index, the previous hash, the Merkle root, the
    timestamp and the nonce of a block, and nothing else. *)
Lemma mineBlock_reads_header fuel d b1 b2 :
  index b1 = index b2 -> previousHash b1 = previousHash b2 ->
  merkleRoot b1 = merkleRoot b2 -> timestamp b1 = timestamp b2 ->
  nonce b1 = nonce b2 ->
  (fun b => (nonce b, hash b)) <$> mineBlock fuel d b1
  = (fun b => (nonce b, hash b)) <$> mineBlock fuel d b2.
Proof.
  revert b1 b2. induction fuel as [|fuel IH]; intros b1 b2 Hi Hp Hm Ht Hn;
    [reflexivity|].
  rewrite !mineBlock_step.
  assert (Hhash : computeHash b1 (nonce b1) "" = computeHash b2 (nonce b2) "")
    by (unfold computeHash; now rewrite Hi, Hp, Hm, Ht, Hn).
  rewrite Hhash. destruct (String.eqb _ _).
  - cbn. now rewrite Hn.
  - apply IH; cbn; congruence.
Qed.

(** X8. A block commits to its transactions through their serialisations
    only: two batches with the same [toString] images give the same Merkle
    root, and mining or forging the two blocks gives the same nonce and
    hash. ([toString] writes the fields one after the other without
    separators, so that different transactions can have the same image.) *)
Theorem block_commits_to_serialisations
    (idx : Z) (prev : string) (txs txs' : list Transaction) (now : Z) :
  map toString txs = map toString txs' ->
  merkleRoot (Block_new SHA256 idx prev txs now)
  = merkleRoot (Block_new SHA256 idx prev txs' now)
  /\ (forall fuel d,
        (fun b => (nonce b, hash b)) <$> mineBlock fuel d (Block_new SHA256 idx prev txs now)
        = (fun b => (nonce b, hash b)) <$> mineBlock fuel d (Block_new SHA256 idx prev txs' now))
  /\ (forall validator,
        hash (forgeBlock (Block_new SHA256 idx prev txs now) validator)
        = hash (forgeBlock (Block_new SHA256 idx prev txs' now) validator)).
Proof.
  intros Himage.
  assert (Hroot : merkleRoot (Block_new SHA256 idx prev txs now)
                  = merkleRoot (Block_new SHA256 idx prev txs' now))
    by (cbn; now rewrite Himage).
  split; [exact Hroot|]. split.
  - intros fuel d. now apply mineBlock_reads_header.
  - intros validator. cbn [forgeBlock hash set_hash nonce set_nonce].
    unfold computeHash. cbn [index previousHash timestamp set_nonce Block_new] in *.
    cbn in Hroot. cbn. now rewrite Hroot.
Qed.

(** ** More on validation *)

Lemma check_link_true previous current :
  check_link previous current = true
  <-> previousHash current = hash previous /\ hash current = recomputedHash current.
Proof.
  unfold check_link.
  destruct (String.eqb_spec (previousHash current) (hash previous));
    destruct (String.eqb_spec (hash current) (recomputedHash current)); cbn;
    split; try discriminate; try tauto; intros []; congruence.
Qed.

Lemma isValid_links (chain : list Block) :
  isValid chain = true
  <-> forall i current previous,
        (0 < i)%nat -> chain !! i = Some current ->
        chain !! (i - 1)%nat = Some previous ->
        previousHash current = hash previous /\ hash current = recomputedHash current.
Proof.
  unfold isValid. rewrite forallb_forall. split.
  - intros Hall i current previous Hi Hcur Hprev.
    apply lookup_lt_Some in Hcur as Hlt.
    specialize (Hall i ltac:(apply in_seq; lia)).
    unfold check_block in Hall. rewrite Hcur, Hprev in Hall.
    now apply check_link_true.
  - intros Hlinks i Hin. apply in_seq in Hin. unfold check_block.
    destruct (lookup_lt_is_Some_2 chain i ltac:(lia)) as [current Hcur].
    destruct (lookup_lt_is_Some_2 chain (i - 1) ltac:(lia)) as [previous Hprev].
    rewrite Hcur, Hprev. apply check_link_true. apply (Hlinks i); [lia | assumption..].
Qed.

Lemma isValid_prefix (chain ext : list Block) :
  isValid (chain ++ ext) = true -> isValid chain = true.
Proof.
  rewrite !isValid_links. intros H i current previous Hi Hcur Hprev.
  apply lookup_lt_Some in Hcur as Hlt.
  apply (H i); [exact Hi | |]; rewrite lookup_app_l by lia; assumption.
Qed.

(** X10. No append repairs a chain: when [isValid] rejects a chain it
    rejects every extension of it, and so the chain left by a further
    [addBlock] of either kind. *)
Theorem invalid_chain_stays_invalid (chain : list Block) :
  isValid chain = false ->
  (forall ext, isValid (chain ++ ext) = false)
  /\ (forall fuel diff txs now chain',
        PoW_addBlock fuel diff chain txs now = Done chain' -> isValid chain' = false)
  /\ (forall vals txs now r chain',
        PoS_addBlock SHA256 vals chain txs now r = Done chain' -> isValid chain' = false).
Proof.
  intros Hbad.
  assert (Hext : forall ext, isValid (chain ++ ext) = false).
  { intros ext. destruct (isValid (chain ++ ext)) eqn:E; [|reflexivity].
    apply isValid_prefix in E. congruence. }
  split; [exact Hext|]. split.
  - intros fuel diff txs now chain' Hadd. unfold PoW_addBlock, getLastBlock in Hadd.
    destruct (last chain); [|discriminate]. cbn in Hadd.
    destruct (mineBlock _ _ _); try discriminate. injection Hadd as <-. apply Hext.
  - intros vals txs now r chain' Hadd. unfold PoS_addBlock, getLastBlock in Hadd.
    destruct (last chain); [|discriminate]. cbn in Hadd.
    destruct (selectValidator _ _); try discriminate. injection Hadd as <-. apply Hext.
Qed.

(** X11. A broken link is found: when the [previousHash] of a block after
    the first is set to anything but the stored hash of its predecessor,
    [isValid] returns false. *)
Theorem previousHash_tampering_is_detected
    (chain : list Block) (i : nat) (b previous : Block) (h : string) :
  (0 < i)%nat -> chain !! i = Some b -> chain !! (i - 1)%nat = Some previous ->
  h <> hash previous ->
  isValid (<[i := set_previousHash b h]> chain) = false.
Proof.
  intros Hi Hb Hprev Hh.
  destruct (isValid _) eqn:E; [exfalso | reflexivity].
  apply lookup_lt_Some in Hb as Hlt.
  destruct (proj1 (isValid_links _) E i (set_previousHash b h) previous) as [Hlink _].
  - exact Hi.
  - now apply list_lookup_insert_eq.
  - rewrite list_lookup_insert_ne by lia. exact Hprev.
  - cbn in Hlink. congruence.
Qed.

(** X12. A stored field that enters the digest cannot be changed unnoticed
    without a collision: when a block after the first of a proof-of-work
    chain is replaced by a block with the same stored hash and the chain
    still passes [isValid], the digest of the fields of the new block is the
    digest of the fields of the old one. *)
Theorem field_tampering_needs_collision
    (diff : nat) (chain : list Block) (i : nat) (b b' : Block) :
  PoW_reachable diff chain ->
  (0 < i)%nat -> chain !! i = Some b -> hash b' = hash b ->
  isValid (<[i := b']> chain) = true ->
  computeHash b' (nonce b') "" = computeHash b (nonce b) "".
Proof.
  intros Hreach Hi Hb Hhash Hvalid.
  apply PoW_reachable_invariant in Hreach as (_ & Hlinks & _).
  apply lookup_lt_Some in Hb as Hlt.
  destruct (lookup_lt_is_Some_2 chain (i - 1) ltac:(lia)) as [previous Hprev].
  destruct (Hlinks i b previous Hi Hb Hprev) as (_ & Hsealed & _).
  destruct (proj1 (isValid_links _) Hvalid i b' previous) as [_ Hre].
  - exact Hi.
  - now apply list_lookup_insert_eq.
  - rewrite list_lookup_insert_ne by lia. exact Hprev.
  - rewrite (recomputedHash_of_digest b' (put_uint (index b) ++ previousHash b
               ++ merkleRoot b ++ put_uint (timestamp b) ++ put_uint (nonce b))%string)
      in Hre.
    + congruence.
    + rewrite Hhash, Hsealed. reflexivity.
Qed.

(** X13. [isValid] never looks at the difficulty: a block that names the
    hash of the tip and is hashed once, with any nonce, extends a valid
    chain to a valid chain. *)
Theorem isValid_ignores_difficulty (chain : list Block) (tip b : Block) (n : Z) :
  last chain = Some tip -> isValid chain = true -> previousHash b = hash tip ->
  isValid (chain ++ [seal_once SHA256 b n]) = true.
Proof.
  intros Htip Hvalid Hprev.
  rewrite (isValid_snoc chain tip _ Htip), Hvalid. cbn [andb].
  apply check_link_true. split; [exact Hprev|].
  rewrite (recomputedHash_of_digest (seal_once SHA256 b n)
             (put_uint (index b) ++ previousHash b ++ merkleRoot b
              ++ put_uint (timestamp b) ++ put_uint n)%string); reflexivity.
Qed.

(** The blocks of a proof-of-work chain, position by position. *)
Lemma PoW_reachable_blocks (diff : nat) (chain : list Block) :
  PoW_reachable diff chain ->
  forall i b, chain !! i = Some b ->
    index b = Z.of_nat i
    /\ hash b = computeHash b (nonce b) ""
    /\ leading_zeros diff (hash b)
    /\ (i = 0%nat -> previousHash b = "0").
Proof.
  intros Hreach.
  induction Hreach as [fuel now chain Hnew | fuel chain txs now chain' Hreach IH Hadd];
    intros i b Hb.
  - unfold PoWBlockchain, Blockchain in Hnew. cbn in Hnew.
    destruct (mineBlock fuel diff _) as [mined| |] eqn:Hmine; try discriminate.
    injection Hnew as <-.
    apply mineBlock_sealed in Hmine as ((Hi & Hp & _) & Hhash & Hzeros).
    destruct i as [|i]; [|discriminate]. injection Hb as <-.
    cbn in Hi, Hp. split; [exact Hi|]. split; [exact Hhash|].
    split; [exact Hzeros|]. intros _. exact Hp.
  - unfold PoW_addBlock, getLastBlock in Hadd.
    destruct (last chain) as [tip|] eqn:Htip; [|discriminate]. cbn in Hadd.
    destruct (mineBlock fuel diff _) as [mined| |] eqn:Hmine; try discriminate.
    injection Hadd as <-.
    apply mineBlock_sealed in Hmine as ((Hi & _) & Hhash & Hzeros). cbn in Hi.
    destruct (Nat.lt_ge_cases i (length chain)) as [Hlt|Hge].
    + rewrite lookup_app_l in Hb by lia. now apply IH.
    + apply lookup_lt_Some in Hb as Hbound. rewrite length_app in Hbound.
      cbn [length] in Hbound. assert (i = length chain) as -> by lia.
      rewrite lookup_app_r, Nat.sub_diag in Hb by lia. injection Hb as <-.
      split; [exact Hi|]. split; [exact Hhash|]. split; [exact Hzeros|].
      intros Hzero. destruct chain; [discriminate | discriminate].
Qed.

(** X14. In a proof-of-work chain the block at position i has the index i,
    stores the digest of its fields at its nonce, a digest that starts with
    [diff] characters '0' (the genesis included), and the genesis names the
    previous hash "0". *)
Theorem PoW_chain_blocks (diff : nat) (chain : list Block) (i : nat) (b : Block) :
  PoW_reachable diff chain -> chain !! i = Some b ->
  index b = Z.of_nat i
  /\ hash b = computeHash b (nonce b) ""
  /\ is_digest (hash b)
  /\ leading_zeros diff (hash b)
  /\ (i = 0%nat -> previousHash b = "0").
Proof.
  intros Hreach Hb.
  destruct (PoW_reachable_blocks diff chain Hreach i b Hb) as (Hi & Hhash & Hz & Hg).
  repeat split; try assumption; rewrite Hhash.
  - apply sha256_hex_length.
  - apply sha256_hex_hex.
Qed.

(** X15. [addBlock] of the proof-of-work chain appends one block and
    changes none: the new block has the next index, names the hash of the
    former tip, and carries the batch, its Merkle root and the time of the
    call. *)
Theorem PoW_addBlock_appends fuel diff (chain : list Block) txs now chain' :
  PoW_addBlock fuel diff chain txs now = Done chain' ->
  exists tip b,
    last chain = Some tip
    /\ chain' = chain ++ [b]
    /\ index b = Z.of_nat (length chain)
    /\ previousHash b = hash tip
    /\ transactions b = txs
    /\ merkleRoot b = getRoot (MerkleTree (map toString txs))
    /\ timestamp b = now.
Proof.
  intros Hadd. unfold PoW_addBlock, getLastBlock in Hadd.
  destruct (last chain) as [tip|] eqn:Htip; [|discriminate]. cbn in Hadd.
  destruct (mineBlock fuel diff _) as [mined| |] eqn:Hmine; try discriminate.
  injection Hadd as <-.
  apply mineBlock_sealed in Hmine as ((Hi & Hp & Hm & Htx & Ht) & _).
  exists tip, mined. cbn in Hi, Hp, Hm, Htx, Ht. repeat split; assumption.
Qed.

End Properties.

(** ** Validator selection *)

Section Selection.

Local Open Scope list_scope.

(** The loop of [selectValidator], entered with [current <= randVal]: when
    the draw is below the sum reached at the end of the list, the loop
    returns the validator at the first position where the running sum
    exceeds the draw. *)
Lemma walk_first_exceeding (vs : list (string * Z)) (r current : Z) :
  let sum_to := fun k => fold_left (fun total v => wrap64 (total + snd v))
                                   (take k vs) current in
  current <= r ->
  r < fold_left (fun total v => wrap64 (total + snd v)) vs current ->
  exists k name stake,
    vs !! k = Some (name, stake)
    /\ walk vs r current = Some name
    /\ r < sum_to (S k)
    /\ forall j, (j < k)%nat -> sum_to (S j) <= r.
Proof.
  revert current. induction vs as [|[name stake] vs IH]; intros current sum_to Hle Hlt.
  - simpl in Hlt. lia.
  - cbn [walk fst snd]. cbn [fold_left snd] in Hlt.
    destruct (Z.ltb_spec r (wrap64 (current + stake))) as [Hhit|Hmiss].
    + exists 0%nat, name, stake. repeat split; [exact Hhit | intros j Hj; lia].
    + destruct (IH (wrap64 (current + stake)) Hmiss Hlt)
        as (k & name' & stake' & Hk & Hwalk & Hex & Hfirst).
      exists (S k), name', stake'. repeat split; try assumption.
      intros [|j] Hj; [exact Hmiss|].
      apply (Hfirst j). lia.
Qed.

(** In the arithmetic of the code: for a draw [r] below [totalStake], the
    wrapped sum, [selectValidator] returns the first validator in list order
    whose running sum in [uint64_t] strictly exceeds [r]. With the
    validators V1:100, V2:200, V3:150 and the draw 250 it returns V2. *)
Theorem selection_returns_first_exceeding :
  (forall (validators : list (string * Z)) (r : Z),
      0 <= r < totalStake validators ->
      exists k name stake,
        validators !! k = Some (name, stake)
        /\ selectValidator validators r = Done name
        /\ r < totalStake (take (S k) validators)
        /\ forall j, (j < k)%nat -> totalStake (take (S j) validators) <= r)
  /\ selectValidator [("V1", 100); ("V2", 200); ("V3", 150)] 250 = Done "V2".
Proof.
  split; [|reflexivity].
  intros validators r [Hpos Hlt].
  destruct (walk_first_exceeding validators r 0 Hpos Hlt)
    as (k & name & stake & Hk & Hwalk & Hex & Hfirst).
  exists k, name, stake. unfold selectValidator. rewrite Hwalk.
  repeat split; assumption.
Qed.

(** Without overflow the cumulative stake is the plain sum of the stakes. *)
Lemma totalStake_no_overflow (vs : list (string * Z)) :
  Forall (fun v => 0 <= snd v) vs ->
  fold_right (fun v total => snd v + total) 0 vs < 2 ^ 64 ->
  totalStake vs = fold_right (fun v total => snd v + total) 0 vs.
Proof.
  unfold totalStake.
  enough (forall current, 0 <= current ->
            Forall (fun v => 0 <= snd v) vs ->
            current + fold_right (fun v total => snd v + total) 0 vs < 2 ^ 64 ->
            fold_left (fun total v => wrap64 (total + snd v)) vs current
            = current + fold_right (fun v total => snd v + total) 0 vs) as H.
  { intros Hall Hsum. rewrite H; [lia | lia | exact Hall | lia]. }
  induction vs as [|v vs IH]; intros current Hcur Hall Hsum; simpl in *; [lia|].
  apply Forall_cons in Hall as [Hv Hall].
  assert (Hrest : 0 <= fold_right (fun v total => snd v + total) 0 vs).
  { clear -Hall. induction Hall; simpl; lia. }
  assert (Hwrap : wrap64 (current + snd v) = current + snd v)
    by (unfold wrap64; apply Z.mod_small; lia).
  rewrite Hwrap, IH; [lia | lia | exact Hall | lia].
Qed.

(** X18. Stake-weighted intervals: without overflow, a draw between
    the sum of the stakes before a validator and that sum plus its own
    stake selects that validator. *)
Corollary selection_interval (pre post : list (string * Z)) name stake (r : Z) :
  let sum := fold_right (fun v total => snd v + total) 0 in
  Forall (fun v => 0 <= snd v) (pre ++ (name, stake) :: post) ->
  sum (pre ++ (name, stake) :: post) < 2 ^ 64 ->
  sum pre <= r < sum pre + stake ->
  selectValidator (pre ++ (name, stake) :: post) r = Done name.
Proof.
  intros sum Hall Hsum Hr.
  assert (Hsplit : forall l1 l2 : list (string * Z), sum (l1 ++ l2) = sum l1 + sum l2).
  { intros l1 l2. induction l1 as [|v l1 IH]; simpl; [reflexivity|]. subst sum.
    simpl in *. lia. }
  assert (Hnonneg : forall l : list (string * Z),
             Forall (fun v => 0 <= snd v) l -> 0 <= sum l).
  { intros l Hl. induction Hl; subst sum; simpl in *; lia. }
  apply Forall_app in Hall as Hparts. destruct Hparts as [Hpre Hpost].
  apply Forall_cons in Hpost as [Hstake Hpost].
  rewrite Hsplit in Hsum. change (sum ((name, stake) :: post)) with (stake + sum post) in Hsum.
  pose proof (Hnonneg pre Hpre). pose proof (Hnonneg post Hpost).
  unfold selectValidator.
  enough (Hwalk : forall current, 0 <= current -> current + sum pre <= r ->
             current + sum pre + stake < 2 ^ 64 -> r < current + sum pre + stake ->
             walk (pre ++ (name, stake) :: post) r current = Some name).
  { rewrite Hwalk; [reflexivity | lia | lia | lia | lia]. }
  clear Hsum Hr Hall. induction Hpre as [|v pre Hv Hpre IH];
    intros current Hcur Hle Hmax Hlt.
  - cbn [app walk fst snd]. change (sum []) with 0 in *.
    assert (Hwrap : wrap64 (current + stake) = current + stake)
      by (unfold wrap64; apply Z.mod_small; lia).
    rewrite Hwrap. destruct (Z.ltb_spec r (current + stake)); [reflexivity | lia].
  - change (sum (v :: pre)) with (snd v + sum pre) in *.
    pose proof (Hnonneg pre Hpre).
    cbn [app walk].
    assert (Hwrap : wrap64 (current + snd v) = current + snd v)
      by (unfold wrap64; apply Z.mod_small; lia).
    rewrite Hwrap. destruct (Z.ltb_spec r (current + snd v)); [lia|].
    apply IH; lia.
Qed.

(** When the sum of the stakes overflows [uint64_t], [totalStake] is the
    wrapped sum; a draw of the distribution can then be above every running
    sum, and the statement after the loop is reached. *)
Example fallback_reached_on_overflow :
  let vals := [("A", 2 ^ 63); ("B", 2 ^ 63)] in
  totalStake vals = 0
  /\ 0 <= 2 ^ 63 + 5 <= draw_max vals
  /\ walk vals (2 ^ 63 + 5) 0 = None
  /\ selectValidator vals (2 ^ 63 + 5) = Done "B".
Proof. vm_compute. repeat split; discriminate. Qed.

(** In the arithmetic of the code: for a draw below [totalStake], the
    wrapped sum, the loop of [selectValidator] returns from inside the list
    and the statement after the loop is not reached. *)
Theorem fallback_is_unreachable (validators : list (string * Z)) (r : Z) :
  validators <> [] -> 0 <= r < totalStake validators ->
  exists name,
    walk validators r 0 = Some name
    /\ selectValidator validators r = Done name
    /\ name ∈ map fst validators.
Proof.
  intros _ [Hpos Hlt].
  destruct (walk_first_exceeding validators r 0 Hpos Hlt)
    as (k & name & stake & Hk & Hwalk & _).
  exists name. unfold selectValidator. rewrite Hwalk.
  repeat split. apply list_elem_of_lookup. exists k.
  now rewrite list_lookup_fmap, Hk.
Qed.

(** With stakes that are all zero the loop runs off the list for every
    draw. *)
Lemma walk_zero_stakes (vs : list (string * Z)) (r : Z) :
  Forall (fun v => snd v = 0) vs -> 0 <= r -> walk vs r 0 = None.
Proof.
  intros Hall Hr. induction Hall as [|v vs Hv _ IH]; [reflexivity|].
  cbn [walk]. rewrite Hv. change (wrap64 (0 + 0)) with 0.
  destruct (Z.ltb_spec r 0); [lia | exact IH].
Qed.

Lemma totalStake_zero_stakes (vs : list (string * Z)) :
  Forall (fun v => snd v = 0) vs -> totalStake vs = 0.
Proof.
  unfold totalStake. intros Hall. induction Hall as [|v vs Hv _ IH]; [reflexivity|].
  cbn [fold_left]. rewrite Hv. exact IH.
Qed.

(** The selection on an empty validator list has no defined behaviour. *)
Lemma selectValidator_empty r : selectValidator [] r = Undefined.
Proof. reflexivity. Qed.

Variable SHA256 : string -> list Byte.byte.

(** C3, as the code has it. A proof-of-stake chain over a non-empty
    validator list whose stakes are all zero does not fail: the total stake
    is 0, the draw ranges over all of [uint64_t], the loop runs off the
    list and the last validator is selected; the constructor leaves the
    genesis forged by it and [addBlock] appends one block forged by it. *)
Theorem zero_stake_selects_last_validator
    (validators : list (string * Z)) (v : string * Z) (r : Z) :
  last validators = Some v ->
  Forall (fun v => snd v = 0) validators ->
  0 <= r <= draw_max validators ->
  totalStake validators = 0
  /\ draw_max validators = 2 ^ 64 - 1
  /\ selectValidator validators r = Done (fst v)
  /\ (forall now,
        PoSBlockchain SHA256 validators now r
        = Done [forgeBlock SHA256 (Block_new SHA256 0 "0" genesisTx now) (fst v)])
  /\ (forall chain tip txs now,
        last chain = Some tip ->
        PoS_addBlock SHA256 validators chain txs now r
        = Done (chain ++ [forgeBlock SHA256
                            (Block_new SHA256 (Z.of_nat (length chain)) (hash tip) txs now)
                            (fst v)])).
Proof.
  intros Hlast Hzero [Hr _].
  assert (Hselect : selectValidator validators r = Done (fst v)).
  { unfold selectValidator. now rewrite walk_zero_stakes, Hlast. }
  assert (Htotal := totalStake_zero_stakes validators Hzero).
  split; [exact Htotal|]. split; [unfold draw_max; now rewrite Htotal|].
  split; [exact Hselect|]. split.
  - intros now. unfold PoSBlockchain. now rewrite Hselect.
  - intros chain tip txs now Htip. unfold PoS_addBlock, getLastBlock.
    rewrite Htip. cbn. now rewrite Hselect.
Qed.

(** ** More on the selection and on the proof-of-stake chain *)

Lemma walk_member (vs : list (string * Z)) r current name :
  walk vs r current = Some name -> name ∈ map fst vs.
Proof.
  revert current. induction vs as [|v vs IH]; intros current Hwalk; [discriminate|].
  cbn [walk] in Hwalk. cbn [map].
  destruct (r <? wrap64 (current + snd v)).
  - injection Hwalk as <-. apply list_elem_of_here.
  - apply list_elem_of_further. eapply IH, Hwalk.
Qed.

Lemma selectValidator_member (vals : list (string * Z)) r name :
  selectValidator vals r = Done name -> name ∈ map fst vals.
Proof.
  unfold selectValidator. destruct (walk vals r 0) as [name'|] eqn:Hwalk.
  - intros [= <-]. eapply walk_member, Hwalk.
  - destruct (last vals) as [v|] eqn:Hlast; [|discriminate]. intros [= <-].
    apply last_Some_elem_of in Hlast. apply list_elem_of_In. apply in_map.
    now apply list_elem_of_In.
Qed.

(** X16. On a non-empty validator list [selectValidator] returns for every
    draw, in the range of the distribution or not, and what it returns is
    the name of a validator of the list. *)
Theorem selectValidator_returns_a_validator (validators : list (string * Z)) (r : Z) :
  validators <> [] ->
  exists name, selectValidator validators r = Done name /\ name ∈ map fst validators.
Proof.
  intros Hne.
  assert (Hdone : exists name, selectValidator validators r = Done name).
  { unfold selectValidator. destruct (walk validators r 0); [eauto|].
    destruct (last validators) eqn:Hlast; [eauto|].
    apply last_None in Hlast. contradiction. }
  destruct Hdone as [name Hname]. exists name. split; [exact Hname|].
  eapply selectValidator_member, Hname.
Qed.

Lemma walk_stake (vs : list (string * Z)) (r current : Z) name :
  0 <= current < 2 ^ 64 -> current <= r ->
  walk vs r current = Some name ->
  exists k stake, vs !! k = Some (name, stake) /\ wrap64 stake <> 0.
Proof.
  revert current. induction vs as [|[n stake] vs IH]; intros current Hcur Hle Hwalk;
    [discriminate|].
  cbn [walk fst snd] in Hwalk.
  destruct (Z.ltb_spec r (wrap64 (current + stake))) as [Hhit|Hmiss].
  - injection Hwalk as <-. exists 0%nat, stake. split; [reflexivity|].
    intros Hzero. unfold wrap64 in *.
    rewrite <- Z.add_mod_idemp_r, Hzero, Z.add_0_r, Z.mod_small in Hhit by lia. lia.
  - destruct (IH (wrap64 (current + stake))) as (k & stake' & Hk & Hstake);
      [unfold wrap64; apply Z.mod_pos_bound; lia | exact Hmiss | exact Hwalk |].
    exists (S k), stake'. split; assumption.
Qed.

(** X17. A validator without stake is never drawn: for a draw in
    [0, totalStake) the validator returned has a stake that is not 0 (in
    [uint64_t]). *)
Theorem drawn_validator_has_stake (validators : list (string * Z)) (r : Z) :
  0 <= r < totalStake validators ->
  exists name k stake,
    selectValidator validators r = Done name
    /\ validators !! k = Some (name, stake)
    /\ wrap64 stake <> 0.
Proof.
  intros [Hpos Hlt].
  destruct (walk_first_exceeding validators r 0 Hpos Hlt) as (_ & name & _ & _ & Hwalk & _).
  destruct (walk_stake validators r 0 name) as (k & stake & Hk & Hstake);
    [lia | exact Hpos | exact Hwalk |].
  exists name, k, stake. unfold selectValidator. rewrite Hwalk. repeat split; assumption.
Qed.

(** The blocks of a proof-of-stake chain, position by position. *)
Lemma PoS_reachable_blocks (vals : list (string * Z)) (chain : list Block) :
  PoS_reachable SHA256 vals chain ->
  chain <> []
  /\ forall i b, chain !! i = Some b ->
       index b = Z.of_nat i
       /\ nonce b = 0
       /\ (exists name, name ∈ map fst vals /\ hash b = computeHash SHA256 b 0 name)
       /\ (i = 0%nat -> previousHash b = "0")
       /\ (forall previous, chain !! (i - 1)%nat = Some previous -> (0 < i)%nat ->
             previousHash b = hash previous).
Proof.
  intros Hreach.
  induction Hreach as [now r chain Hr Hnew | chain txs now r chain' Hreach IH Hr Hadd].
  - unfold PoSBlockchain in Hnew.
    destruct (selectValidator vals r) as [name| |] eqn:Hsel; try discriminate.
    cbn in Hnew. injection Hnew as <-. split; [discriminate|].
    intros [|i] b Hb; [|discriminate]. injection Hb as <-.
    split; [reflexivity|]. split; [reflexivity|].
    split; [exists name; split; [eapply selectValidator_member, Hsel | reflexivity]|].
    split; [reflexivity | intros previous _ Hlt; lia].
  - destruct IH as [Hne IH]. unfold PoS_addBlock, getLastBlock in Hadd.
    destruct (last chain) as [tip|] eqn:Htip; [|discriminate]. cbn in Hadd.
    destruct (selectValidator vals r) as [name| |] eqn:Hsel; try discriminate.
    cbn in Hadd. injection Hadd as <-. split; [now destruct chain|].
    intros i b Hb.
    destruct (Nat.lt_ge_cases i (length chain)) as [Hlt|Hge].
    + rewrite lookup_app_l in Hb by lia.
      destruct (IH i b Hb) as (Hi & Hn & Hh & Hg & Hl).
      repeat split; try assumption.
      intros previous Hprev Hpos. rewrite lookup_app_l in Hprev by lia. now apply Hl.
    + apply lookup_lt_Some in Hb as Hbound. rewrite length_app in Hbound.
      cbn [length] in Hbound. assert (i = length chain) as -> by lia.
      rewrite lookup_app_r, Nat.sub_diag in Hb by lia. injection Hb as <-.
      split; [reflexivity|]. split; [reflexivity|].
      split; [exists name; split; [eapply selectValidator_member, Hsel | reflexivity]|].
      split; [intros Hzero; destruct chain; discriminate|].
      intros previous Hprev _. rewrite lookup_app_l in Hprev by (destruct chain; simpl in *; [congruence|lia]).
      rewrite last_lookup in Htip.
      replace (length chain - 1)%nat with (Nat.pred (length chain)) in Hprev by lia.
      cbn. congruence.
Qed.

(** X19. In a proof-of-stake chain the block at position i has the index
    i and the nonce 0, stores the digest of its fields together with the
    name of one of the validators, and names the stored hash of its
    predecessor ("0" for the genesis). *)
Theorem PoS_chain_blocks (vals : list (string * Z)) (chain : list Block)
    (i : nat) (b : Block) :
  PoS_reachable SHA256 vals chain -> chain !! i = Some b ->
  index b = Z.of_nat i
  /\ nonce b = 0
  /\ (exists name, name ∈ map fst vals /\ hash b = computeHash SHA256 b 0 name)
  /\ (i = 0%nat -> previousHash b = "0")
  /\ (forall previous, chain !! (i - 1)%nat = Some previous -> (0 < i)%nat ->
        previousHash b = hash previous).
Proof.
  intros Hreach Hb. now apply (PoS_reachable_blocks vals chain Hreach).
Qed.

(** X20. On a proof-of-stake chain [isValid] comes down to one test per
    appended block: whether the stored hash, taken with the validator, is
    the digest of the same fields taken without a validator. The links
    hold and the validator is never read back. *)
Theorem PoS_validation_is_a_digest_test (vals : list (string * Z)) (chain : list Block) :
  PoS_reachable SHA256 vals chain ->
  isValid SHA256 chain
  = forallb (fun b => String.eqb (hash b) (computeHash SHA256 b 0 "")) (tail chain).
Proof.
  intros Hreach.
  induction Hreach as [now r chain Hr Hnew | chain txs now r chain' Hreach IH Hr Hadd].
  - unfold PoSBlockchain in Hnew.
    destruct (selectValidator vals r) as [name| |]; try discriminate.
    cbn in Hnew. injection Hnew as <-. reflexivity.
  - unfold PoS_addBlock, getLastBlock in Hadd.
    destruct (last chain) as [tip|] eqn:Htip; [|discriminate]. cbn in Hadd.
    destruct (selectValidator vals r) as [name| |]; try discriminate.
    cbn in Hadd. injection Hadd as <-.
    rewrite (isValid_snoc SHA256 chain tip _ Htip), IH.
    destruct chain as [|g chain]; [discriminate|].
    cbn [tail app]. rewrite forallb_app. f_equal. cbn [forallb].
    rewrite andb_true_r. unfold check_link.
    erewrite recomputedHash_of_digest
      by (cbn; unfold computeHash; reflexivity).
    cbn [previousHash forgeBlock set_hash set_nonce Block_new nonce].
    rewrite String.eqb_refl. cbn [negb].
    destruct (String.eqb _ _); reflexivity.
Qed.

(** ** Selection without overflow *)

Lemma sum_of_stakes_take (vs : list (string * Z)) (k : nat) :
  Forall (fun v => 0 <= snd v) vs ->
  0 <= sum_of_stakes (take k vs) <= sum_of_stakes vs.
Proof.
  intros Hall. revert k. induction Hall as [|v vs Hv _ IH]; intros k.
  - destruct k; cbn; lia.
  - destruct k as [|k]; cbn [take sum_of_stakes fold_right].
    + specialize (IH 0%nat). cbn in IH. fold (sum_of_stakes vs). lia.
    + specialize (IH k). fold (sum_of_stakes (take k vs)) (sum_of_stakes vs). lia.
Qed.

Lemma totalStake_take_no_overflow (vs : list (string * Z)) (k : nat) :
  Forall (fun v => 0 <= snd v) vs -> sum_of_stakes vs < 2 ^ 64 ->
  totalStake (take k vs) = sum_of_stakes (take k vs).
Proof.
  intros Hall Hsum. apply totalStake_no_overflow.
  - now apply Forall_take.
  - pose proof (sum_of_stakes_take vs k Hall) as Hle. unfold sum_of_stakes in *. lia.
Qed.

(** C7, as the code has it. When the stakes are non-negative and their sum
    fits in [uint64_t], the total of the code is that sum and, for a draw
    [r] in [0, total stake), [selectValidator] returns the first validator
    in list order whose cumulative stake, the sum of the stakes up to and
    including its own, strictly exceeds [r]. With the validators V1:100,
    V2:200, V3:150 and the draw 250 it returns V2. *)
Theorem selection_first_exceeding_without_overflow :
  (forall (validators : list (string * Z)) (r : Z),
      Forall (fun v => 0 <= snd v) validators ->
      sum_of_stakes validators < 2 ^ 64 ->
      0 <= r < sum_of_stakes validators ->
      totalStake validators = sum_of_stakes validators
      /\ exists k name stake,
           validators !! k = Some (name, stake)
           /\ selectValidator validators r = Done name
           /\ r < sum_of_stakes (take (S k) validators)
           /\ forall j, (j < k)%nat -> sum_of_stakes (take (S j) validators) <= r)
  /\ selectValidator [("V1", 100); ("V2", 200); ("V3", 150)] 250 = Done "V2".
Proof.
  split; [|reflexivity].
  intros validators r Hall Hsum [Hpos Hlt].
  assert (Htotal : totalStake validators = sum_of_stakes validators)
    by (now apply totalStake_no_overflow).
  split; [exact Htotal|].
  destruct (walk_first_exceeding validators r 0 Hpos)
    as (k & name & stake & Hk & Hwalk & Hex & Hfirst).
  { change (r < totalStake validators). lia. }
  exists k, name, stake. unfold selectValidator. rewrite Hwalk.
  split; [exact Hk|]. split; [reflexivity|]. split.
  - rewrite <- (totalStake_take_no_overflow validators (S k) Hall Hsum). exact Hex.
  - intros j Hj. rewrite <- (totalStake_take_no_overflow validators (S j) Hall Hsum).
    now apply Hfirst.
Qed.

(** C9, as the code has it. For a non-empty validator list whose stakes are
    non-negative and whose sum fits in [uint64_t], and a draw below the
    total stake, the loop of [selectValidator] returns a validator from
    inside the list, so that the statement after the loop, which returns the
    last validator, is not reached. *)
Theorem fallback_is_unreachable_without_overflow
    (validators : list (string * Z)) (r : Z) :
  validators <> [] ->
  Forall (fun v => 0 <= snd v) validators ->
  sum_of_stakes validators < 2 ^ 64 ->
  0 <= r < sum_of_stakes validators ->
  exists name,
    walk validators r 0 = Some name
    /\ selectValidator validators r = Done name
    /\ name ∈ map fst validators.
Proof.
  intros _ Hall Hsum [Hpos Hlt].
  assert (Htotal : totalStake validators = sum_of_stakes validators)
    by (now apply totalStake_no_overflow).
  destruct (walk_first_exceeding validators r 0 Hpos)
    as (k & name & stake & Hk & Hwalk & _).
  { change (r < totalStake validators). lia. }
  exists name. unfold selectValidator. rewrite Hwalk.
  split; [reflexivity|]. split; [reflexivity|].
  eapply walk_member, Hwalk.
Qed.

End Selection.

(** ** The chains of Exercice2.cpp and Exercice3.cpp, and printTree *)

Section Exercices.

Local Open Scope list_scope.

Variable SHA256 : string -> list Byte.byte.

Lemma Exercice2_mineBlock_sealed fuel d (b b' : Exercice2.Block) :
  Exercice2.mineBlock SHA256 fuel d b = Done b' ->
  Exercice2.index b' = Exercice2.index b
  /\ Exercice2.previousHash b' = Exercice2.previousHash b
  /\ Exercice2.data b' = Exercice2.data b
  /\ Exercice2.timestamp b' = Exercice2.timestamp b
  /\ Exercice2.hash b' = Exercice2.computeHash SHA256 b' (Exercice2.nonce b')
  /\ leading_zeros d (Exercice2.hash b').
Proof.
  intros Hrun. pose proof (Exercice2_mineBlock_simulation SHA256 fuel d b) as Hsim.
  rewrite Hrun in Hsim. symmetry in Hsim. cbn in Hsim.
  apply mineBlock_sealed in Hsim as ((Hi & Hp & Hm & _ & Ht) & Hhash & Hzeros).
  cbn in Hi, Hp, Hm, Ht, Hzeros. repeat split; assumption.
Qed.

(** X22. In a chain of Exercice2.cpp the block at position i has the
    index i, stores the digest of (index, previousHash, data, timestamp,
    nonce), which starts with [diff] characters '0', and names the stored
    hash of its predecessor; the genesis holds "Genesis Block" and names
    "0". *)
Theorem Exercice2_chain_blocks (diff : nat) (chain : list Exercice2.Block)
    (i : nat) (b : Exercice2.Block) :
  Exercice2_reachable SHA256 diff chain -> chain !! i = Some b ->
  Exercice2.index b = Z.of_nat i
  /\ Exercice2.hash b = Exercice2.computeHash SHA256 b (Exercice2.nonce b)
  /\ leading_zeros diff (Exercice2.hash b)
  /\ (i = 0%nat ->
      Exercice2.previousHash b = "0" /\ Exercice2.data b = "Genesis Block")
  /\ (forall previous, chain !! (i - 1)%nat = Some previous -> (0 < i)%nat ->
        Exercice2.previousHash b = Exercice2.hash previous).
Proof.
  intros Hreach. revert i b.
  induction Hreach as [fuel now chain Hnew | fuel chain d now chain' Hreach IH Hadd];
    intros i b Hb.
  - unfold Exercice2.Blockchain in Hnew. cbn in Hnew.
    destruct (Exercice2.mineBlock SHA256 fuel diff _) as [mined| |] eqn:Hmine;
      try discriminate.
    cbn in Hnew. injection Hnew as <-.
    apply Exercice2_mineBlock_sealed in Hmine as (Hi & Hp & Hd & _ & Hhash & Hzeros).
    destruct i as [|i]; [|discriminate]. injection Hb as <-. cbn in Hi, Hp, Hd.
    split; [exact Hi|]. split; [exact Hhash|]. split; [exact Hzeros|].
    split; [intros _; now split | intros previous _ Hlt; lia].
  - unfold Exercice2.addBlock in Hadd.
    destruct (last chain) as [tip|] eqn:Htip; [|discriminate].
    destruct (Exercice2.mineBlock SHA256 fuel diff _) as [mined| |] eqn:Hmine;
      try discriminate.
    cbn in Hadd. injection Hadd as <-.
    apply Exercice2_mineBlock_sealed in Hmine as (Hi & Hp & _ & _ & Hhash & Hzeros).
    cbn in Hi, Hp.
    destruct (Nat.lt_ge_cases i (length chain)) as [Hlt|Hge].
    + rewrite lookup_app_l in Hb by lia.
      destruct (IH i b Hb) as (Hi' & Hh & Hz & Hg & Hl).
      repeat split; try assumption; try (now apply Hg).
      intros previous Hprev Hpos. rewrite lookup_app_l in Hprev by lia. now apply Hl.
    + apply lookup_lt_Some in Hb as Hbound. rewrite length_app in Hbound.
      cbn [length] in Hbound. assert (i = length chain) as -> by lia.
      rewrite lookup_app_r, Nat.sub_diag in Hb by lia. injection Hb as <-.
      split; [exact Hi|]. split; [exact Hhash|]. split; [exact Hzeros|].
      split; [intros Hzero; destruct chain; discriminate|].
      intros previous Hprev Hpos. rewrite lookup_app_l in Hprev by lia.
      rewrite last_lookup in Htip.
      replace (length chain - 1)%nat with (Nat.pred (length chain)) in Hprev by lia.
      congruence.
Qed.

Lemma Exercice3_forgeBlock_forged vals (b b' : Exercice2.Block) r :
  Exercice3.forgeBlock SHA256 vals b r = Done b' ->
  Exercice2.index b' = Exercice2.index b
  /\ Exercice2.previousHash b' = Exercice2.previousHash b
  /\ Exercice2.timestamp b' = Exercice2.timestamp b
  /\ Exercice2.nonce b' = 0
  /\ Exercice2.hash b' = Exercice2.computeHash SHA256 b' 0
  /\ exists name,
       name ∈ map fst vals
       /\ Exercice2.data b'
          = (Exercice2.data b ++ " (Forged by: " ++ name ++ ")")%string.
Proof.
  unfold Exercice3.forgeBlock.
  destruct (selectValidator vals r) as [name| |] eqn:Hsel; try discriminate.
  cbn [mbind outcome_bind mret outcome_ret]. intros [= <-].
  do 5 (split; [reflexivity|]).
  exists name. split; [eapply selectValidator_member, Hsel | reflexivity].
Qed.

(** X23. In a proof-of-stake chain of Exercice3.cpp the block at position
    i has the index i and the nonce 0, its data ends with the signature
    " (Forged by: V)" of a validator V of the list, its hash is the digest
    of its fields with that data, and it names the stored hash of its
    predecessor. *)
Theorem Exercice3_PoS_chain_blocks (vals : list (string * Z))
    (chain : list Exercice2.Block) (i : nat) (b : Exercice2.Block) :
  Exercice3.PoS_reachable SHA256 vals chain -> chain !! i = Some b ->
  Exercice2.index b = Z.of_nat i
  /\ Exercice2.nonce b = 0
  /\ Exercice2.hash b = Exercice2.computeHash SHA256 b 0
  /\ (exists d name,
        name ∈ map fst vals
        /\ Exercice2.data b = (d ++ " (Forged by: " ++ name ++ ")")%string)
  /\ (i = 0%nat -> Exercice2.previousHash b = "0")
  /\ (forall previous, chain !! (i - 1)%nat = Some previous -> (0 < i)%nat ->
        Exercice2.previousHash b = Exercice2.hash previous).
Proof.
  intros Hreach. revert i b.
  induction Hreach as [now r chain Hnew | chain d now r chain' Hreach IH Hadd];
    intros i b Hb.
  - unfold Exercice3.PoSBlockchain in Hnew. cbn in Hnew.
    destruct (Exercice3.forgeBlock SHA256 vals _ r) as [forged| |] eqn:Hforge;
      try discriminate.
    cbn in Hnew. injection Hnew as <-.
    apply Exercice3_forgeBlock_forged in Hforge
      as (Hi & Hp & _ & Hn & Hhash & name & Hname & Hdata).
    destruct i as [|i]; [|discriminate]. injection Hb as <-. cbn in Hi, Hp.
    split; [exact Hi|]. split; [exact Hn|]. split; [exact Hhash|].
    split; [eauto|]. split; [intros _; exact Hp | intros previous _ Hlt; lia].
  - unfold Exercice3.addBlock in Hadd.
    destruct (last chain) as [tip|] eqn:Htip; [|discriminate].
    destruct (Exercice3.forgeBlock SHA256 vals _ r) as [forged| |] eqn:Hforge;
      try discriminate.
    cbn in Hadd. injection Hadd as <-.
    apply Exercice3_forgeBlock_forged in Hforge
      as (Hi & Hp & _ & Hn & Hhash & name & Hname & Hdata).
    cbn in Hi, Hp.
    destruct (Nat.lt_ge_cases i (length chain)) as [Hlt|Hge].
    + rewrite lookup_app_l in Hb by lia.
      destruct (IH i b Hb) as (Hi' & Hn' & Hh & Hd & Hg & Hl).
      repeat split; try assumption.
      intros previous Hprev Hpos. rewrite lookup_app_l in Hprev by lia. now apply Hl.
    + apply lookup_lt_Some in Hb as Hbound. rewrite length_app in Hbound.
      cbn [length] in Hbound. assert (i = length chain) as -> by lia.
      rewrite lookup_app_r, Nat.sub_diag in Hb by lia. injection Hb as <-.
      split; [exact Hi|]. split; [exact Hn|]. split; [exact Hhash|].
      split; [eauto|]. split; [intros Hzero; destruct chain; discriminate|].
      intros previous Hprev Hpos. rewrite lookup_app_l in Hprev by lia.
      rewrite last_lookup in Htip.
      replace (length chain - 1)%nat with (Nat.pred (length chain)) in Hprev by lia.
      congruence.
Qed.



(** X25. The line that [printTree] labels "Level 0" shows the digest of the
    first leaf, whatever the number of leaves: the first entry of [tree] is
    a leaf digest, not the root that [getRoot] reads at the back. *)
Theorem printTree_level_0_is_first_leaf (leaf : string) (leaves : list string) :
  printTree (MerkleTree SHA256 (leaf :: leaves)) !! 0%nat
  = Some ("Level 0: " ++ sha256_hex SHA256 leaf)%string.
Proof.
  destruct (MerkleTree_nodes SHA256 (leaf :: leaves)) as (upper & _ & -> & _).
  reflexivity.
Qed.

End Exercices.

(** ** Concrete runs

    The instance [Fips.SHA256] agrees with the test vectors of FIPS 180-4,
    and [put_double] with the output of a C++ stream. *)

Example sha256_hex_empty :
  sha256_hex Fips.SHA256 ""
  = "e3b0c44298fc1c149afbf4c8996fb92427ae41e4649b934ca495991b7852b855".
Proof. vm_compute. reflexivity. Qed.

Example sha256_hex_abc :
  sha256_hex Fips.SHA256 "abc"
  = "ba7816bf8f01cfea414140de5dae2223b00361a396177a9cb410ff61f20015ad".
Proof. vm_compute. reflexivity. Qed.

Example sha256_hex_two_blocks :
  sha256_hex Fips.SHA256 "abcdbcdecdefdefgefghfghighijhijkijkljklmklmnlmnomnopnopq"
  = "248d6a61d20638b8e5c026930c3e6039a33ce45964ff2167f6ecedd419db06c1".
Proof. vm_compute. reflexivity. Qed.

Example put_double_values :
  map (fun z => put_double (double_of_Z z)) [0; 5; 10; 1000; 999999; 1000000; 123456789]
  = ["0"; "5"; "10"; "1000"; "999999"; "1e+06"; "1.23457e+08"]
  /\ put_double (SFdiv 53 1024 (double_of_Z 1) (double_of_Z 10)) = "0.1"
  /\ put_double (SFdiv 53 1024 (double_of_Z (-1)) (double_of_Z 3)) = "-0.333333"
  /\ put_double (SFdiv 53 1024 (double_of_Z 1) (double_of_Z 100000)) = "1e-05".
Proof. vm_compute. repeat split. Qed.

Example toString_genesis :
  map toString genesisTx = ["0GenesisGenesis0"].
Proof. vm_compute. reflexivity. Qed.

Lemma pow_run_reachable fuel diff n chain :
  Demo.pow_run fuel diff n = Done chain -> PoW_reachable Fips.SHA256 diff chain.
Proof.
  revert chain. induction n as [|n IH]; intros chain Hrun.
  - now apply (PoW_constructed _ _ fuel Demo.t0).
  - cbn [Demo.pow_run] in Hrun.
    destruct (Demo.pow_run fuel diff n) as [chain0| |]; try discriminate.
    eapply PoW_appended; [now apply IH | exact Hrun].
Qed.

Lemma pos_run_reachable vals draw n chain :
  (forall i, 0 <= draw i <= draw_max vals) ->
  Demo.pos_run vals draw n = Done chain -> PoS_reachable Fips.SHA256 vals chain.
Proof.
  intros Hdraw. revert chain. induction n as [|n IH]; intros chain Hrun.
  - now apply (PoS_constructed _ _ Demo.t0 (draw 0%nat)).
  - cbn [Demo.pos_run] in Hrun.
    destruct (Demo.pos_run vals draw n) as [chain0| |]; try discriminate.
    eapply PoS_appended; [now apply IH | apply Hdraw | exact Hrun].
Qed.

Lemma draws_in_range i : 0 <= Demo.draws i <= draw_max Demo.validators.
Proof.
  unfold Demo.draws. do 6 (destruct i as [|i]; [vm_compute; split; discriminate|]).
  destruct i; vm_compute; split; discriminate.
Qed.

(** C1 fails on the code. The proof-of-stake chain of [main], built with
    draws of the distribution, is rejected by [isValid] as soon as one block
    is appended: the stored hash is a digest, [isValid] looks for the text
    "(Validated by:" in it, never finds it, and so hashes the block again
    without its validator. *)
Theorem PoS_chain_fails_validation :
  exists chain,
    Demo.pos_run Demo.validators Demo.draws 1 = Done chain
    /\ PoS_reachable Fips.SHA256 Demo.validators chain
    /\ length chain = 2%nat
    /\ isValid Fips.SHA256 chain = false
    /\ (exists chain5,
          Demo.pos_run Demo.validators Demo.draws 5 = Done chain5
          /\ isValid Fips.SHA256 chain5 = false).
Proof.
  eexists. split; [vm_compute; reflexivity|].
  split; [apply (pos_run_reachable _ Demo.draws 1 _ draws_in_range);
          vm_compute; reflexivity|].
  split; [reflexivity|]. split; [vm_compute; reflexivity|].
  eexists. split; [vm_compute; reflexivity|]. vm_compute. reflexivity.
Qed.

(** C2 fails on the code. On the proof-of-work chain of [main] at difficulty
    1, genesis and one appended block, the amount of the first transaction
    of block 1 is changed from 10 to 1000 and nothing else; [isValid] still
    returns true. *)
Lemma tampered_amount_passes_validation :
  exists chain,
    Demo.pow_run 64 1 1 = Done chain
    /\ isValid Fips.SHA256 chain = true
    /\ (chain !! 1%nat ≫= fun b => amount <$> transactions b !! 0%nat)
       = Some (double_of_Z 10)
    /\ (tamper_amount chain 1 0 (double_of_Z 1000) !! 1%nat
          ≫= fun b => amount <$> transactions b !! 0%nat)
       = Some (double_of_Z 1000)
    /\ isValid Fips.SHA256 (tamper_amount chain 1 0 (double_of_Z 1000)) = true.
Proof.
  eexists. split; [vm_compute; reflexivity|].
  repeat split; vm_compute; reflexivity.
Qed.

(** C3 fails on the code. With the single validator Validator1 of stake 0
    the total stake is zero, yet the constructor returns a chain holding the
    forged genesis and [addBlock] returns it with one more block. *)
Lemma zero_stake_chain_is_built :
  let vals := [("Validator1", 0)] in
  totalStake vals = 0
  /\ 0 <= 7 <= draw_max vals
  /\ exists chain chain',
      PoSBlockchain Fips.SHA256 vals Demo.t0 7 = Done chain
      /\ length chain = 1%nat
      /\ PoS_addBlock Fips.SHA256 vals chain (Demo.pos_txs 1) (Demo.t0 + 1) 7
         = Done chain'
      /\ length chain' = 2%nat.
Proof.
  cbv zeta. split; [reflexivity|].
  split; [vm_compute; split; discriminate|].
  eexists. eexists. split; [vm_compute; reflexivity|].
  split; [reflexivity|]. split; [vm_compute; reflexivity | reflexivity].
Qed.

(** *** Instances of the theorems *)

Lemma mining_stops_at_least_nonce_witness :
  let b := Block_new Fips.SHA256 0 "0" genesisTx Demo.t0 in
  nonce b = 0 /\ 0 <= 30 < 2 ^ 64 /\ qualifies Fips.SHA256 b 1 30
  /\ exists fuel b',
      mineBlock Fips.SHA256 fuel 1 b = Done b'
      /\ 0 <= nonce b' <= 30
      /\ qualifies Fips.SHA256 b 1 (nonce b')
      /\ (forall m, 0 <= m < nonce b' -> ~ qualifies Fips.SHA256 b 1 m)
      /\ hash b' = computeHash Fips.SHA256 b (nonce b') ""
      /\ hash b' = sha256_hex Fips.SHA256
                     (put_uint (index b) ++ previousHash b ++ merkleRoot b
                      ++ put_uint (timestamp b) ++ put_uint (nonce b'))
      /\ leading_zeros 1 (hash b')
      /\ (forall fuel' b'', mineBlock Fips.SHA256 fuel' 1 b = Done b'' -> b'' = b').
Proof.
  cbv zeta.
  assert (Hq : qualifies Fips.SHA256 (Block_new Fips.SHA256 0 "0" genesisTx Demo.t0) 1 30).
  { apply prefix_check_iff. vm_compute. reflexivity. }
  split; [reflexivity|]. split; [lia|]. split; [exact Hq|].
  apply (mining_stops_at_least_nonce Fips.SHA256 1 _ 30); [reflexivity | lia | exact Hq].
Defined.

Lemma PoW_chain_is_valid_witness :
  exists chain,
    Demo.pow_run 64 1 5 = Done chain
    /\ PoW_reachable Fips.SHA256 1 chain
    /\ (forall i current previous,
          (0 < i)%nat -> chain !! i = Some current ->
          chain !! (i - 1)%nat = Some previous ->
          previousHash current = hash previous
          /\ hash current = computeHash Fips.SHA256 current (nonce current) ""
          /\ hash current = recomputedHash Fips.SHA256 current)
    /\ isValid Fips.SHA256 chain = true.
Proof.
  eexists. split; [vm_compute; reflexivity|].
  match goal with
  | |- PoW_reachable _ _ ?chain /\ _ =>
      assert (Hreach : PoW_reachable Fips.SHA256 1 chain)
        by (apply (pow_run_reachable 64 1 5); vm_compute; reflexivity)
  end.
  split; [exact Hreach|].
  exact (PoW_chain_is_valid Fips.SHA256 1 _ Hreach).
Defined.

Lemma genesis_content_is_not_validated_witness :
  let genesis := forgeBlock Fips.SHA256 (Block_new Fips.SHA256 0 "0" genesisTx Demo.t0) "V" in
  let genesis' := set_nonce (set_transactions genesis (Demo.pos_txs 9)) 42 in
  let rest := [forgeBlock Fips.SHA256
                 (Block_new Fips.SHA256 1 (hash genesis) (Demo.pos_txs 1) (Demo.t0 + 1)) ""] in
  hash genesis = hash genesis'
  /\ isValid Fips.SHA256 (genesis :: rest) = isValid Fips.SHA256 (genesis' :: rest).
Proof.
  cbv zeta. split; [reflexivity|].
  apply (genesis_content_is_not_validated Fips.SHA256). reflexivity.
Defined.

Lemma zero_stake_selects_last_validator_witness :
  let vals := [("Validator1", 0); ("Validator2", 0)] in
  last vals = Some ("Validator2", 0)
  /\ Forall (fun v => snd v = 0) vals
  /\ 0 <= 7 <= draw_max vals
  /\ selectValidator vals 7 = Done "Validator2"
  /\ (forall now,
        PoSBlockchain Fips.SHA256 vals now 7
        = Done [forgeBlock Fips.SHA256 (Block_new Fips.SHA256 0 "0" genesisTx now)
                           "Validator2"]).
Proof.
  cbv zeta.
  assert (Hall : Forall (fun v : string * Z => snd v = 0)
                        [("Validator1", 0); ("Validator2", 0)])
    by (repeat constructor).
  assert (Hr : 0 <= 7 <= draw_max [("Validator1", 0); ("Validator2", 0)])
    by (vm_compute; split; discriminate).
  split; [reflexivity|]. split; [exact Hall|]. split; [exact Hr|].
  destruct (zero_stake_selects_last_validator Fips.SHA256
              [("Validator1", 0); ("Validator2", 0)] ("Validator2", 0) 7
              eq_refl Hall Hr) as (_ & _ & Hselect & Hnew & _).
  split; [exact Hselect | exact Hnew].
Defined.

(** *** Instances of the further theorems *)

Lemma mining_spins_above_64_witness :
  (64 < 65)%nat
  /\ (forall b, mineBlock Fips.SHA256 3 65 b = Spinning)
  /\ (forall now, PoWBlockchain Fips.SHA256 3 65 now = Spinning)
  /\ (forall chain tip txs now,
         last chain = Some tip ->
         PoW_addBlock Fips.SHA256 3 65 chain txs now = Spinning).
Proof.
  split; [lia|]. apply (mining_spins_above_64 Fips.SHA256 3 65). lia.
Defined.

Lemma no_search_at_difficulty_zero_witness :
  exists chain,
    Demo.pow_run 4 0 2 = Done chain
    /\ PoW_reachable Fips.SHA256 0 chain
    /\ Forall (fun b => nonce b = 0) chain.
Proof.
  eexists. split; [vm_compute; reflexivity|].
  match goal with
  | |- PoW_reachable _ _ ?chain /\ _ =>
      assert (Hreach : PoW_reachable Fips.SHA256 0 chain)
        by (apply (pow_run_reachable 4 0 2); vm_compute; reflexivity)
  end.
  split; [exact Hreach|].
  exact (proj2 (no_search_at_difficulty_zero Fips.SHA256) _ Hreach).
Defined.

Lemma block_commits_to_serialisations_witness :
  let txs := [Demo.tx "1" "Alice" "Bob1" 0] in
  let txs' := [Demo.tx "1" "Alice" "Bob" 10] in
  map receiver txs <> map receiver txs'
  /\ map toString txs = map toString txs'
  /\ merkleRoot (Block_new Fips.SHA256 1 "0" txs Demo.t0)
     = merkleRoot (Block_new Fips.SHA256 1 "0" txs' Demo.t0)
  /\ (forall fuel d,
        (fun b => (nonce b, hash b))
          <$> mineBlock Fips.SHA256 fuel d (Block_new Fips.SHA256 1 "0" txs Demo.t0)
        = (fun b => (nonce b, hash b))
          <$> mineBlock Fips.SHA256 fuel d (Block_new Fips.SHA256 1 "0" txs' Demo.t0))
  /\ (forall validator,
        hash (forgeBlock Fips.SHA256 (Block_new Fips.SHA256 1 "0" txs Demo.t0) validator)
        = hash (forgeBlock Fips.SHA256 (Block_new Fips.SHA256 1 "0" txs' Demo.t0) validator)).
Proof.
  cbv zeta. split; [discriminate|].
  assert (Himage : map toString [Demo.tx "1" "Alice" "Bob1" 0]
                   = map toString [Demo.tx "1" "Alice" "Bob" 10])
    by (vm_compute; reflexivity).
  split; [exact Himage|].
  exact (block_commits_to_serialisations Fips.SHA256 1 "0" _ _ Demo.t0 Himage).
Defined.

Lemma invalid_chain_stays_invalid_witness :
  exists chain,
    Demo.pos_run Demo.validators Demo.draws 1 = Done chain
    /\ isValid Fips.SHA256 chain = false
    /\ (forall ext, isValid Fips.SHA256 (chain ++ ext) = false)
    /\ (forall fuel diff txs now chain',
          PoW_addBlock Fips.SHA256 fuel diff chain txs now = Done chain' ->
          isValid Fips.SHA256 chain' = false)
    /\ (forall vals txs now r chain',
          PoS_addBlock Fips.SHA256 vals chain txs now r = Done chain' ->
          isValid Fips.SHA256 chain' = false).
Proof.
  eexists. split; [vm_compute; reflexivity|].
  match goal with
  | |- isValid _ ?chain = false /\ _ =>
      assert (Hbad : isValid Fips.SHA256 chain = false) by (vm_compute; reflexivity)
  end.
  split; [exact Hbad|].
  exact (invalid_chain_stays_invalid Fips.SHA256 _ Hbad).
Defined.

Lemma previousHash_tampering_is_detected_witness :
  exists chain b previous,
    Demo.pow_run 64 1 2 = Done chain
    /\ (0 < 1)%nat /\ chain !! 1%nat = Some b /\ chain !! (1 - 1)%nat = Some previous
    /\ "00" <> hash previous
    /\ isValid Fips.SHA256 (<[1%nat := set_previousHash b "00"]> chain) = false.
Proof.
  eexists. eexists. eexists. split; [vm_compute; reflexivity|].
  split; [lia|]. split; [reflexivity|]. split; [reflexivity|].
  split; [discriminate|].
  eapply (previousHash_tampering_is_detected Fips.SHA256);
    [lia | reflexivity | reflexivity | discriminate].
Defined.

Lemma field_tampering_needs_collision_witness :
  exists chain b,
    Demo.pow_run 64 1 2 = Done chain
    /\ PoW_reachable Fips.SHA256 1 chain
    /\ (0 < 1)%nat /\ chain !! 1%nat = Some b
    /\ hash (set_transactions b []) = hash b
    /\ isValid Fips.SHA256 (<[1%nat := set_transactions b []]> chain) = true
    /\ computeHash Fips.SHA256 (set_transactions b []) (nonce (set_transactions b [])) ""
       = computeHash Fips.SHA256 b (nonce b) "".
Proof.
  eexists. eexists. split; [vm_compute; reflexivity|].
  match goal with
  | |- PoW_reachable _ _ ?chain /\ _ =>
      assert (Hreach : PoW_reachable Fips.SHA256 1 chain)
        by (apply (pow_run_reachable 64 1 2); vm_compute; reflexivity)
  end.
  split; [exact Hreach|]. split; [lia|]. split; [reflexivity|].
  split; [reflexivity|].
  match goal with
  | |- isValid _ ?tampered = true /\ _ =>
      assert (Hvalid : isValid Fips.SHA256 tampered = true) by (vm_compute; reflexivity)
  end.
  split; [exact Hvalid|].
  exact (field_tampering_needs_collision Fips.SHA256 1 _ 1 _ _ Hreach
           ltac:(lia) eq_refl eq_refl Hvalid).
Defined.

Lemma isValid_ignores_difficulty_witness :
  exists chain tip,
    let b := Block_new Fips.SHA256 2 (hash tip) (Demo.pow_txs 2) (Demo.t0 + 2) in
    Demo.pow_run 64 1 1 = Done chain
    /\ last chain = Some tip
    /\ isValid Fips.SHA256 chain = true
    /\ previousHash b = hash tip
    /\ ~ leading_zeros 1 (hash (seal_once Fips.SHA256 b 0))
    /\ isValid Fips.SHA256 (chain ++ [seal_once Fips.SHA256 b 0]) = true.
Proof.
  eexists. eexists. cbv zeta. split; [vm_compute; reflexivity|].
  split; [reflexivity|].
  match goal with
  | |- isValid _ ?chain = true /\ _ =>
      assert (Hvalid : isValid Fips.SHA256 chain = true) by (vm_compute; reflexivity)
  end.
  split; [exact Hvalid|]. split; [reflexivity|]. split.
  - intros Hzeros. apply prefix_check_iff in Hzeros. vm_compute in Hzeros. discriminate.
  - eapply (isValid_ignores_difficulty Fips.SHA256);
      [reflexivity | exact Hvalid | reflexivity].
Defined.

Lemma PoW_chain_blocks_witness :
  exists chain b,
    Demo.pow_run 64 1 2 = Done chain
    /\ PoW_reachable Fips.SHA256 1 chain /\ chain !! 2%nat = Some b
    /\ index b = Z.of_nat 2
    /\ hash b = computeHash Fips.SHA256 b (nonce b) ""
    /\ is_digest (hash b)
    /\ leading_zeros 1 (hash b)
    /\ (2%nat = 0%nat -> previousHash b = "0").
Proof.
  eexists. eexists. split; [vm_compute; reflexivity|].
  match goal with
  | |- PoW_reachable _ _ ?chain /\ _ =>
      assert (Hreach : PoW_reachable Fips.SHA256 1 chain)
        by (apply (pow_run_reachable 64 1 2); vm_compute; reflexivity)
  end.
  split; [exact Hreach|]. split; [reflexivity|].
  exact (PoW_chain_blocks Fips.SHA256 1 _ 2 _ Hreach eq_refl).
Defined.

Lemma PoW_addBlock_appends_witness :
  exists chain chain',
    Demo.pow_run 64 1 1 = Done chain
    /\ PoW_addBlock Fips.SHA256 64 1 chain (Demo.pow_txs 2) (Demo.t0 + 2) = Done chain'
    /\ exists tip b,
         last chain = Some tip
         /\ chain' = (chain ++ [b])%list
         /\ index b = Z.of_nat (length chain)
         /\ previousHash b = hash tip
         /\ transactions b = Demo.pow_txs 2
         /\ merkleRoot b = getRoot (MerkleTree Fips.SHA256 (map toString (Demo.pow_txs 2)))
         /\ timestamp b = Demo.t0 + 2.
Proof.
  eexists. eexists. split; [vm_compute; reflexivity|].
  match goal with
  | |- ?run = Done ?c /\ _ =>
      assert (Hadd : run = Done c) by (vm_compute; reflexivity)
  end.
  split; [exact Hadd|].
  exact (PoW_addBlock_appends Fips.SHA256 _ _ _ _ _ _ Hadd).
Defined.

Lemma selectValidator_returns_a_validator_witness :
  Demo.validators <> []
  /\ exists name,
       selectValidator Demo.validators 449 = Done name
       /\ name ∈ map fst Demo.validators.
Proof.
  split; [discriminate|].
  apply (selectValidator_returns_a_validator Demo.validators 449). discriminate.
Defined.

Lemma drawn_validator_has_stake_witness :
  let vals := [("A", 0); ("B", 5); ("C", 0)] in
  0 <= 0 < totalStake vals
  /\ exists name k stake,
       selectValidator vals 0 = Done name
       /\ vals !! k = Some (name, stake)
       /\ wrap64 stake <> 0.
Proof.
  cbv zeta.
  assert (H : 0 <= 0 < totalStake [("A", 0); ("B", 5); ("C", 0)])
    by (vm_compute; split; [discriminate | reflexivity]).
  split; [exact H|].
  exact (drawn_validator_has_stake _ 0 H).
Defined.

Lemma selection_interval_witness :
  let sum := fold_right (fun (v : string * Z) total => snd v + total) 0 in
  let pre := [("Validator1", 100)] in
  let post := [("Validator3", 150)] in
  Forall (fun v => 0 <= snd v) (pre ++ ("Validator2", 200) :: post)%list
  /\ sum (pre ++ ("Validator2", 200) :: post)%list < 2 ^ 64
  /\ sum pre <= 250 < sum pre + 200
  /\ selectValidator (pre ++ ("Validator2", 200) :: post)%list 250 = Done "Validator2".
Proof.
  cbv zeta.
  assert (Hall : Forall (fun v : string * Z => 0 <= snd v)
                   ([("Validator1", 100)] ++ ("Validator2", 200) :: [("Validator3", 150)])%list)
    by (repeat constructor; discriminate).
  split; [exact Hall|]. split; [reflexivity|]. split; [cbn; lia|].
  apply (selection_interval [("Validator1", 100)] [("Validator3", 150)]
           "Validator2" 200 250 Hall); [reflexivity | cbn; lia].
Defined.

Lemma PoS_chain_blocks_witness :
  exists chain b,
    Demo.pos_run Demo.validators Demo.draws 2 = Done chain
    /\ PoS_reachable Fips.SHA256 Demo.validators chain /\ chain !! 2%nat = Some b
    /\ index b = Z.of_nat 2
    /\ nonce b = 0
    /\ (exists name,
          name ∈ map fst Demo.validators /\ hash b = computeHash Fips.SHA256 b 0 name)
    /\ (2%nat = 0%nat -> previousHash b = "0")
    /\ (forall previous, chain !! (2 - 1)%nat = Some previous -> (0 < 2)%nat ->
          previousHash b = hash previous).
Proof.
  eexists. eexists. split; [vm_compute; reflexivity|].
  match goal with
  | |- PoS_reachable _ _ ?chain /\ _ =>
      assert (Hreach : PoS_reachable Fips.SHA256 Demo.validators chain)
        by (apply (pos_run_reachable _ Demo.draws 2 _ draws_in_range);
            vm_compute; reflexivity)
  end.
  split; [exact Hreach|]. split; [reflexivity|].
  exact (PoS_chain_blocks Fips.SHA256 Demo.validators _ 2 _ Hreach eq_refl).
Defined.

Lemma PoS_validation_is_a_digest_test_witness :
  exists chain,
    Demo.pos_run Demo.validators Demo.draws 2 = Done chain
    /\ PoS_reachable Fips.SHA256 Demo.validators chain
    /\ isValid Fips.SHA256 chain
       = forallb (fun b => String.eqb (hash b) (computeHash Fips.SHA256 b 0 ""))
                 (tail chain).
Proof.
  eexists. split; [vm_compute; reflexivity|].
  match goal with
  | |- PoS_reachable _ _ ?chain /\ _ =>
      assert (Hreach : PoS_reachable Fips.SHA256 Demo.validators chain)
        by (apply (pos_run_reachable _ Demo.draws 2 _ draws_in_range);
            vm_compute; reflexivity)
  end.
  split; [exact Hreach|].
  exact (PoS_validation_is_a_digest_test Fips.SHA256 Demo.validators _ Hreach).
Defined.

Lemma Exercice2_mining_stops_at_least_nonce_witness :
  let b := Exercice2.Block_new 0 "0" "Genesis Block" Demo.t0 in
  Exercice2.nonce b = 0 /\ 0 <= 21 < 2 ^ 64
  /\ leading_zeros 1 (Exercice2.computeHash Fips.SHA256 b 21)
  /\ exists fuel b',
       Exercice2.mineBlock Fips.SHA256 fuel 1 b = Done b'
       /\ 0 <= Exercice2.nonce b' <= 21
       /\ (forall m, 0 <= m < Exercice2.nonce b' ->
                     ~ leading_zeros 1 (Exercice2.computeHash Fips.SHA256 b m))
       /\ Exercice2.hash b' = Exercice2.computeHash Fips.SHA256 b (Exercice2.nonce b')
       /\ leading_zeros 1 (Exercice2.hash b').
Proof.
  cbv zeta.
  assert (Hq : leading_zeros 1
                 (Exercice2.computeHash Fips.SHA256
                    (Exercice2.Block_new 0 "0" "Genesis Block" Demo.t0) 21)).
  { apply prefix_check_iff. vm_compute. reflexivity. }
  split; [reflexivity|]. split; [lia|]. split; [exact Hq|].
  apply (Exercice2_mining_stops_at_least_nonce Fips.SHA256 1 _ 21);
    [reflexivity | lia | exact Hq].
Defined.

Lemma Exercice2_chain_blocks_witness :
  exists chain chain' b,
    Exercice2.Blockchain Fips.SHA256 64 1 Demo.t0 = Done chain
    /\ Exercice2.addBlock Fips.SHA256 64 1 chain "Transaction 1" (Demo.t0 + 1) = Done chain'
    /\ Exercice2_reachable Fips.SHA256 1 chain' /\ chain' !! 1%nat = Some b
    /\ Exercice2.index b = Z.of_nat 1
    /\ Exercice2.hash b = Exercice2.computeHash Fips.SHA256 b (Exercice2.nonce b)
    /\ leading_zeros 1 (Exercice2.hash b)
    /\ (1%nat = 0%nat ->
        Exercice2.previousHash b = "0" /\ Exercice2.data b = "Genesis Block")
    /\ (forall previous, chain' !! (1 - 1)%nat = Some previous -> (0 < 1)%nat ->
          Exercice2.previousHash b = Exercice2.hash previous).
Proof.
  eexists. eexists. eexists. split; [vm_compute; reflexivity|].
  match goal with
  | |- ?run = Done ?c /\ _ =>
      assert (Hadd : run = Done c) by (vm_compute; reflexivity)
  end.
  split; [exact Hadd|].
  match goal with
  | |- Exercice2_reachable _ _ ?c /\ _ =>
      assert (Hreach : Exercice2_reachable Fips.SHA256 1 c)
  end.
  { eapply Exercice2_appended; [|exact Hadd].
    eapply (Exercice2_constructed _ _ 64 Demo.t0). vm_compute. reflexivity. }
  split; [exact Hreach|]. split; [reflexivity|].
  exact (Exercice2_chain_blocks Fips.SHA256 1 _ 1 _ Hreach eq_refl).
Defined.

Lemma Exercice3_PoS_chain_blocks_witness :
  exists chain chain' b,
    Exercice3.PoSBlockchain Fips.SHA256 Demo.validators Demo.t0 250 = Done chain
    /\ Exercice3.addBlock Fips.SHA256 Demo.validators chain "Transaction 1" (Demo.t0 + 1) 17
       = Done chain'
    /\ Exercice3.PoS_reachable Fips.SHA256 Demo.validators chain'
    /\ chain' !! 1%nat = Some b
    /\ Exercice2.index b = Z.of_nat 1
    /\ Exercice2.nonce b = 0
    /\ Exercice2.hash b = Exercice2.computeHash Fips.SHA256 b 0
    /\ (exists d name,
          name ∈ map fst Demo.validators
          /\ Exercice2.data b = d ++ " (Forged by: " ++ name ++ ")")
    /\ (1%nat = 0%nat -> Exercice2.previousHash b = "0")
    /\ (forall previous, chain' !! (1 - 1)%nat = Some previous -> (0 < 1)%nat ->
          Exercice2.previousHash b = Exercice2.hash previous).
Proof.
  eexists. eexists. eexists. split; [vm_compute; reflexivity|].
  match goal with
  | |- ?run = Done ?c /\ _ =>
      assert (Hadd : run = Done c) by (vm_compute; reflexivity)
  end.
  split; [exact Hadd|].
  match goal with
  | |- Exercice3.PoS_reachable _ _ ?c /\ _ =>
      assert (Hreach : Exercice3.PoS_reachable Fips.SHA256 Demo.validators c)
  end.
  { eapply Exercice3.PoS_appended; [|exact Hadd].
    eapply (Exercice3.PoS_constructed _ _ Demo.t0 250). vm_compute. reflexivity. }
  split; [exact Hreach|]. split; [reflexivity|].
  exact (Exercice3_PoS_chain_blocks Fips.SHA256 Demo.validators _ 1 _ Hreach eq_refl).
Defined.


(** *** Selection when the stakes overflow *)

(** C7 fails on the code. With the stakes A:1, B:2^64-1, C:5 the total of
    the code wraps to 5 and the draw 3 is a draw of its distribution. The
    cumulative stakes are 1, 2^64 and 2^64+5, so that B is the first
    validator whose cumulative stake exceeds 3; the running sum of the code
    wraps to 0 at B and [selectValidator] returns C. *)
Lemma selection_skips_first_exceeding_on_overflow :
  let vals := [("A", 1); ("B", 2 ^ 64 - 1); ("C", 5)] in
  totalStake vals = 5
  /\ 0 <= 3 <= draw_max vals
  /\ 0 <= 3 < sum_of_stakes vals
  /\ vals !! 1%nat = Some ("B", 2 ^ 64 - 1)
  /\ sum_of_stakes (take 1 vals) <= 3 < sum_of_stakes (take 2 vals)
  /\ selectValidator vals 3 = Done "C".
Proof. vm_compute. repeat split; discriminate. Qed.

(** C9 fails on the code. With the stakes A:2^63, B:2^63 the total of the
    code wraps to 0 and the distribution ranges over all of [uint64_t]; the
    draw 2^63+5 is below the sum of the stakes, 2^64, yet above every
    running sum of the loop: the loop runs off the list and the fallback
    returns B. *)
Lemma fallback_reached_below_the_sum_of_stakes :
  let vals := [("A", 2 ^ 63); ("B", 2 ^ 63)] in
  vals <> []
  /\ 0 <= 2 ^ 63 + 5 < sum_of_stakes vals
  /\ 0 <= 2 ^ 63 + 5 <= draw_max vals
  /\ walk vals (2 ^ 63 + 5) 0 = None
  /\ selectValidator vals (2 ^ 63 + 5) = Done "B".
Proof.
  cbv zeta. split; [discriminate|]. vm_compute. repeat split; discriminate.
Qed.

Lemma selection_first_exceeding_without_overflow_witness :
  Forall (fun v => 0 <= snd v) Demo.validators
  /\ sum_of_stakes Demo.validators < 2 ^ 64
  /\ 0 <= 250 < sum_of_stakes Demo.validators
  /\ totalStake Demo.validators = sum_of_stakes Demo.validators
  /\ exists k name stake,
       Demo.validators !! k = Some (name, stake)
       /\ selectValidator Demo.validators 250 = Done name
       /\ 250 < sum_of_stakes (take (S k) Demo.validators)
       /\ forall j, (j < k)%nat -> sum_of_stakes (take (S j) Demo.validators) <= 250.
Proof.
  assert (Hall : Forall (fun v : string * Z => 0 <= snd v) Demo.validators)
    by (repeat constructor; discriminate).
  assert (Hsum : sum_of_stakes Demo.validators < 2 ^ 64) by reflexivity.
  assert (Hr : 0 <= 250 < sum_of_stakes Demo.validators)
    by (vm_compute; split; [discriminate | reflexivity]).
  split; [exact Hall|]. split; [exact Hsum|]. split; [exact Hr|].
  exact (proj1 selection_first_exceeding_without_overflow Demo.validators 250 Hall Hsum Hr).
Defined.

Lemma fallback_is_unreachable_without_overflow_witness :
  Demo.validators <> []
  /\ Forall (fun v => 0 <= snd v) Demo.validators
  /\ sum_of_stakes Demo.validators < 2 ^ 64
  /\ 0 <= 449 < sum_of_stakes Demo.validators
  /\ exists name,
       walk Demo.validators 449 0 = Some name
       /\ selectValidator Demo.validators 449 = Done name
       /\ name ∈ map fst Demo.validators.
Proof.
  assert (Hall : Forall (fun v : string * Z => 0 <= snd v) Demo.validators)
    by (repeat constructor; discriminate).
  assert (Hsum : sum_of_stakes Demo.validators < 2 ^ 64) by reflexivity.
  assert (Hr : 0 <= 449 < sum_of_stakes Demo.validators)
    by (vm_compute; split; [discriminate | reflexivity]).
  split; [discriminate|]. split; [exact Hall|]. split; [exact Hsum|]. split; [exact Hr|].
  apply fallback_is_unreachable_without_overflow;
    [discriminate | exact Hall | exact Hsum | exact Hr].
Defined.
